(** * simple3d: the geometry pipeline and the OBJ loader

    A shallow embedding of [js/index.js] (Vector3D, Transformation, Camera,
    Model3D, Renderer, Application) and of [js/objloader.js] (parseOBJ).

    Conventions of the embedding.
    - A JavaScript number is a real number ([R]): arithmetic is exact, there
      is no NaN and no infinity.  Statements that divide are stated where the
      divisor is not zero.
    - [undefined] and [null] are [None]; reading a property of [undefined] or
      [null] raises a TypeError, which is the [TypeError] outcome of [result].
    - An array is a list, [a[i]] is the list lookup [a !! i].
    - The canvas is write-only: a method that draws returns the drawing
      operation it performs. *)

From Stdlib Require Import Reals Lra ZArith Lia List Sorted Permutation Ascii String.
From stdpp Require Import base option list gmap.

Set Default Proof Using "Type".
Local Open Scope R_scope.

(** ** Outcomes: a value, or a thrown TypeError *)

Inductive result (A : Type) : Type :=
| Ok (a : A)
| TypeError.
Arguments Ok {A} a.
Arguments TypeError {A}.

#[global] Instance result_ret : MRet result := fun A a => Ok a.
#[global] Instance result_bind : MBind result :=
  fun A B k r => match r with Ok a => k a | TypeError => TypeError end.
#[global] Instance result_fmap : FMap result :=
  fun A B g r => match r with Ok a => Ok (g a) | TypeError => TypeError end.

(** [o.p] where [o] may be [undefined] or [null]. *)
Definition deref {A : Type} (o : option A) : result A :=
  match o with Some a => Ok a | None => TypeError end.

(** [returns_true r]: the call returned the boolean [true]. *)
Definition returns_true (r : result bool) : bool :=
  match r with Ok true => true | _ => false end.

(** [a < b] on numbers, as a boolean. *)
Definition Rltb (a b : R) : bool := if Rlt_dec a b then true else false.

(** ** Array.prototype.sort

    [Array_sort gt l] models [l.sort(compareFn)] where [gt a b] is
    [compareFn(a, b) > 0].  The language fixes the result for a consistent
    comparator: the elements ordered by it, equal elements in their original
    order.  Stable insertion computes it. *)

Fixpoint sort_insert {A : Type} (gt : A -> A -> bool) (a : A) (l : list A) : list A :=
  match l with
  | [] => [a]
  | b :: l' => if gt a b then b :: sort_insert gt a l' else a :: b :: l'
  end.

Fixpoint Array_sort {A : Type} (gt : A -> A -> bool) (l : list A) : list A :=
  match l with
  | [] => []
  | a :: l' => sort_insert gt a (Array_sort gt l')
  end.

(** ** Vector3D *)

Record Vector3D : Type := new_Vector3D { x : R; y : R; z : R }.

Definition subtract (a b : Vector3D) : Vector3D :=
  new_Vector3D (x a - x b) (y a - y b) (z a - z b).

Definition cross (a b : Vector3D) : Vector3D :=
  new_Vector3D
    (y a * z b - z a * y b)
    (z a * x b - x a * z b)
    (x a * y b - y a * x b).

Definition dot (a b : Vector3D) : R :=
  x a * x b + y a * y b + z a * z b.

Definition magnitude (this : Vector3D) : R :=
  sqrt (x this ^ 2 + y this ^ 2 + z this ^ 2).

Definition normalize (this : Vector3D) : Vector3D :=
  let mag := magnitude this in
  new_Vector3D (x this / mag) (y this / mag) (z this / mag).

(** ** Transformation *)

Definition rotateXZ (v : Vector3D) (angle : R) : Vector3D :=
  let c := cos angle in
  let s := sin angle in
  new_Vector3D (x v * c - z v * s) (y v) (x v * s + z v * c).

Definition translateZ (v : Vector3D) (dz : R) : Vector3D :=
  new_Vector3D (x v) (y v) (z v + dz).

(** ** Camera *)

Record Camera : Type := mkCamera {
  canvasWidth : R;
  canvasHeight : R;
  distance : R
}.

Definition new_Camera (canvasWidth canvasHeight : R) : Camera :=
  mkCamera canvasWidth canvasHeight 1.

Definition project (this : Camera) (v : Vector3D) : Vector3D :=
  new_Vector3D (x v / z v) (y v / z v) (z v).

(** The [{x, y}] object of [toScreenCoords]. *)
Record ScreenPoint : Type := mkScreenPoint { screenX : R; screenY : R }.

Definition toScreenCoords (this : Camera) (v : Vector3D) : ScreenPoint :=
  mkScreenPoint
    ((x v + 1) / 2 * canvasWidth this)
    ((1 - (y v + 1) / 2) * canvasHeight this).

(** ** Model3D *)

Record Model3D : Type := mkModel3D {
  vertices : list Vector3D;
  faces : list (list nat);
  rotation : R;
  position : Vector3D
}.

Definition new_Model3D (vertices : list Vector3D) (faces : list (list nat))
    (cameraDistance : R) : Model3D :=
  mkModel3D vertices faces 0 (new_Vector3D 0 0 cameraDistance).

(** [this.vertices[faceIndices[k]]], [undefined] when either lookup misses. *)
Definition faceVertex (this : Model3D) (faceIndices : list nat) (k : nat)
    : option Vector3D :=
  idx ← faceIndices !! k; vertices this !! idx.

(** [null] is [Ok None]. *)
Definition getFaceNormal (this : Model3D) (faceIndices : list nat)
    : result (option Vector3D) :=
  if (length faceIndices <? 3)%nat then Ok None
  else
    let v0 := faceVertex this faceIndices 0 in
    let v1 := faceVertex this faceIndices 1 in
    let v2 := faceVertex this faceIndices 2 in
    edge1 ← (a ← deref v1; b ← deref v0; Ok (subtract a b));
    edge2 ← (a ← deref v2; b ← deref v0; Ok (subtract a b));
    Ok (Some (cross edge1 edge2)).

Definition isFaceVisible (this : Model3D) (faceIndices : list nat) : result bool :=
  normal ← getFaceNormal this faceIndices;
  match normal with
  | None => Ok true
  | Some normal =>
      let rotatedNormal := rotateXZ normal (rotation this) in
      Ok (Rltb (z rotatedNormal) 0)
  end.

(** The [for (const idx of faceIndices)] loop, [sumZ] being the accumulator. *)
Fixpoint getAverageDepth_loop (this : Model3D) (faceIndices : list nat) (sumZ : R)
    : result R :=
  match faceIndices with
  | [] => Ok sumZ
  | idx :: rest =>
      v ← deref (vertices this !! idx);
      let rotated := rotateXZ v (rotation this) in
      let translated := translateZ rotated (z (position this)) in
      getAverageDepth_loop this rest (sumZ + z translated)
  end.

Definition getAverageDepth (this : Model3D) (faceIndices : list nat) : result R :=
  sumZ ← getAverageDepth_loop this faceIndices 0;
  Ok (sumZ / INR (length faceIndices)).

Definition transformVertex (this : Model3D) (v : Vector3D) : Vector3D :=
  let rotated := rotateXZ v (rotation this) in
  translateZ rotated (z (position this)).

(** ** Renderer *)

(** What a drawing method puts on the canvas: the closed path through
    [screenPoints], stroked in the foreground colour (wireframe) or filled
    with [rgb(0, colorValue, 0)] and stroked with [rgb(0, colorValue * 0.7, 0)]. *)
Inductive CanvasOp : Type :=
| StrokePath (lineWidth : R) (path : list ScreenPoint)
| FillStrokePath (fillGreen : Z) (strokeGreen : R) (lineWidth : R)
    (path : list ScreenPoint).

Record Renderer : Type := mkRenderer {
  camera : Camera;
  wireframeMode : bool;
  lightDirection : Vector3D
}.

Definition new_Renderer (width height : R) : Renderer :=
  mkRenderer (new_Camera width height) false
    (normalize (new_Vector3D 0.5 0.5 (-0.5))).

(** [ctx.moveTo(screenPoints[0].x, screenPoints[0].y)] reads the first point,
    the [lineTo] loop reads the others. *)
Definition tracePath (screenPoints : list ScreenPoint) : result (list ScreenPoint) :=
  p0 ← deref (screenPoints !! 0%nat);
  Ok (p0 :: drop 1 screenPoints).

Definition drawWireframe (this : Renderer) (screenPoints : list ScreenPoint)
    : result CanvasOp :=
  path ← tracePath screenPoints;
  Ok (StrokePath 2 path).

(** The constants of [drawShadedFace], as functions of what they are
    computed from. *)
Definition brightness (lightDirection normalizedNormal : Vector3D) : R :=
  Rmax 0 (dot normalizedNormal lightDirection).

Definition minBrightness : R := 0.3.

Definition finalBrightness (brightness : R) : R :=
  minBrightness + brightness * (1 - minBrightness).

Definition colorValue (finalBrightness : R) : Z :=
  Zfloor (255 * finalBrightness).

Definition drawShadedFace (this : Renderer) (model : Model3D)
    (faceIndices : list nat) (screenPoints : list ScreenPoint) : result CanvasOp :=
  normal ← getFaceNormal model faceIndices;
  normal ← deref normal;
  let rotatedNormal := rotateXZ normal (rotation model) in
  let normalizedNormal := normalize rotatedNormal in
  let colorValue :=
    colorValue (finalBrightness (brightness (lightDirection this) normalizedNormal)) in
  path ← tracePath screenPoints;
  Ok (FillStrokePath colorValue (IZR colorValue * 0.7) 1 path).

(** [faceIndices.map(idx => ...)]: the callback throws on a missing vertex. *)
Fixpoint screenPointsOf (this : Renderer) (model : Model3D) (faceIndices : list nat)
    : result (list ScreenPoint) :=
  match faceIndices with
  | [] => Ok []
  | idx :: rest =>
      v ← deref (vertices model !! idx);
      let transformed := transformVertex model v in
      let projected := project (camera this) transformed in
      let p := toScreenCoords (camera this) projected in
      ps ← screenPointsOf this model rest;
      Ok (p :: ps)
  end.

Definition drawFace (this : Renderer) (model : Model3D) (faceIndices : list nat)
    : result CanvasOp :=
  screenPoints ← screenPointsOf this model faceIndices;
  if wireframeMode this then drawWireframe this screenPoints
  else drawShadedFace this model faceIndices screenPoints.

(** ** Application *)

Record Application : Type := mkApplication {
  model : Model3D;
  renderer : Renderer;
  targetFPS : R
}.

Record FaceWithDepth : Type := mkFaceWithDepth {
  face : list nat;
  depth : R
}.

(** One call [renderer.drawFace(model, face)] and what it drew. *)
Record DrawCall : Type := mkDrawCall {
  drawnFace : list nat;
  drawnOp : CanvasOp
}.

(** [this.model.faces.map((face, idx) => ({face, depth: ...}))]. *)
Fixpoint facesWithDepthOf (model : Model3D) (faces : list (list nat))
    : result (list FaceWithDepth) :=
  match faces with
  | [] => Ok []
  | face :: rest =>
      depth ← getAverageDepth model face;
      fds ← facesWithDepthOf model rest;
      Ok (mkFaceWithDepth face depth :: fds)
  end.

(** [(a, b) => b.depth - a.depth] is positive. *)
Definition byDepthDescending (a b : FaceWithDepth) : bool :=
  Rltb 0 (depth b - depth a).

(** The body of the [for (const { face } of facesWithDepth)] loop:
    [None] is [continue]. *)
Definition renderFace (this : Application) (face : list nat)
    : result (option DrawCall) :=
  skip ←
    (if negb (wireframeMode (renderer this))
     then visible ← isFaceVisible (model this) face; Ok (negb visible)
     else Ok false);
  if (skip : bool) then Ok None
  else op ← drawFace (renderer this) (model this) face;
       Ok (Some (mkDrawCall face op)).

Fixpoint renderLoop (this : Application) (facesWithDepth : list FaceWithDepth)
    : result (list DrawCall) :=
  match facesWithDepth with
  | [] => Ok []
  | fd :: rest =>
      call ← renderFace this (face fd);
      calls ← renderLoop this rest;
      Ok (match call with Some c => c :: calls | None => calls end)
  end.

(** The faces in drawing order, before culling. *)
Definition sortedFaces (this : Application) : result (list FaceWithDepth) :=
  facesWithDepth ← facesWithDepthOf (model this) (faces (model this));
  Ok (Array_sort byDepthDescending facesWithDepth).

(** [render] returns the calls to [drawFace] in the order they are made.
    Clearing the canvas and the FPS text do not depend on the faces and are
    left out. *)
Definition render (this : Application) : result (list DrawCall) :=
  facesWithDepth ← sortedFaces this;
  renderLoop this facesWithDepth.

Definition update (this : Application) (dt : R) : Application :=
  let m := model this in
  mkApplication
    (mkModel3D (vertices m) (faces m) (rotation m + PI * dt) (position m))
    (renderer this) (targetFPS this).

(** ** objloader.js: parseOBJ

    A JavaScript string is the list of its UTF-16 code units.  [parseInt]
    returns an integer of [Z] or NaN ([None]); the rounding of integers beyond
    2^53 is not modelled.  [parseFloat] is the host's: the loader is
    parametrised by it and by the type of the numbers it returns. *)

Definition jsstring : Type := list N.

Fixpoint takeWhile {A : Type} (p : A -> bool) (l : list A) : list A :=
  match l with
  | a :: l' => if p a then a :: takeWhile p l' else []
  | [] => []
  end.

Fixpoint dropWhile {A : Type} (p : A -> bool) (l : list A) : list A :=
  match l with
  | a :: l' => if p a then dropWhile p l' else l
  | [] => []
  end.

(** WhiteSpace and LineTerminator code units: what [\s] matches and what
    [trim] and [parseInt] strip. *)
Definition isWhiteSpace (c : N) : bool :=
  ((9 <=? c) && (c <=? 13) || (c =? 32) || (c =? 160) || (c =? 5760)
   || (8192 <=? c) && (c <=? 8202) || (c =? 8232) || (c =? 8233)
   || (c =? 8239) || (c =? 8287) || (c =? 12288) || (c =? 65279))%N.

Definition trimStart (s : jsstring) : jsstring :=
  dropWhile isWhiteSpace s.

Definition trim (s : jsstring) : jsstring :=
  rev (dropWhile isWhiteSpace (rev (trimStart s))).

(** [text.split(/\r?\n/)]; [cur] is the line being read, reversed. *)
Fixpoint splitLines (cur : jsstring) (text : jsstring) : list jsstring :=
  match text with
  | [] => [rev cur]
  | c :: rest =>
      if (c =? 10)%N then rev cur :: splitLines [] rest
      else
        match rest with
        | c' :: rest' =>
            if ((c =? 13) && (c' =? 10))%N then rev cur :: splitLines [] rest'
            else splitLines (c :: cur) rest
        | [] => splitLines (c :: cur) rest
        end
  end.

(** [line.split(/\s+/)]; [inSep] holds while a run of white space is read. *)
Fixpoint splitWhiteSpace (inSep : bool) (cur : jsstring) (line : jsstring)
    : list jsstring :=
  match line with
  | [] => [rev cur]
  | c :: rest =>
      if isWhiteSpace c
      then if inSep then splitWhiteSpace true [] rest
           else rev cur :: splitWhiteSpace true [] rest
      else splitWhiteSpace false (c :: cur) rest
  end.

(** [p.split('/')[0]]. *)
Definition beforeSlash (p : jsstring) : jsstring :=
  takeWhile (fun c => negb (c =? 47)%N) p.

Definition isDigit (c : N) : bool := ((48 <=? c) && (c <=? 57))%N.

Definition digitsValue (ds : jsstring) : Z :=
  foldl (fun acc c => (10 * acc + (Z.of_N c - 48))%Z) 0%Z ds.

(** [parseInt(s, 10)]. *)
Definition parseInt (s : jsstring) : option Z :=
  let s := trimStart s in
  let '(sign, s) :=
    match s with
    | c :: s' => if (c =? 45)%N then ((-1)%Z, s')
                 else if (c =? 43)%N then (1%Z, s') else (1%Z, s)
    | [] => (1%Z, s)
    end in
  let ds := takeWhile isDigit s in
  match ds with
  | [] => None
  | _ => Some (sign * digitsValue ds)%Z
  end.

(** The fan of triangles [[idxs[0], idxs[i], idxs[i + 1]]], [i] from 1 to
    [idxs.length - 2]; [others] is [idxs] from position [i] on. *)
Fixpoint fanFrom (first : Z) (others : list Z) : list (list Z) :=
  match others with
  | a :: (b :: _) as others' => [first; a; b] :: fanFrom first others'
  | _ => []
  end.

Definition triangulate (idxs : list Z) : list (list Z) :=
  if (3 <=? length idxs)%nat
  then match idxs with
       | first :: others => fanFrom first others
       | [] => []
       end
  else [].

(** [usedSet.add(idx)]: a Set keeps insertion order and no duplicates. *)
Definition Set_add (s : list Z) (idx : Z) : list Z :=
  if bool_decide (idx ∈ s) then s else s ++ [idx].

(** [a[i]] for a number [i] that may be negative. *)
Definition arrayGet {A : Type} (a : list A) (i : Z) : option A :=
  if (i <? 0)%Z then None else a !! Z.to_nat i.

Section parseOBJ.

Variable number : Type.
Variable parseFloat : jsstring -> option number.

Record Vertex : Type := mkVertex { vX : number; vY : number; vZ : number }.

(** The mesh returned: a vertex is [undefined] when a face named an index
    outside the parsed vertices; an index of a face is what
    [oldToNew.get] returned. *)
Record Mesh : Type := mkMesh {
  meshVertices : list (option Vertex);
  meshFaces : list (list (option nat))
}.

(** [parseFloat(parts[k])]: a missing part reads as NaN. *)
Definition parseFloatPart (parts : list jsstring) (k : nat) : option number :=
  p ← parts !! k; parseFloat p.

(** The indices of an [f] line. *)
Definition faceIdxs (parts : list jsstring) : list Z :=
  omap (fun p => n ← parseInt (beforeSlash p); Some (n - 1)%Z) (drop 1 parts).

(** The body of the loop over the lines, on the arrays
    [vertices] and [faces]. *)
Definition parseLine (acc : list Vertex * list (list Z)) (raw : jsstring)
    : list Vertex * list (list Z) :=
  let '(vertices, faces) := acc in
  let line := trim raw in
  match line with
  | [] => acc
  | c :: _ =>
      if (c =? 35)%N then acc
      else
        let parts := splitWhiteSpace false [] line in
        if bool_decide (parts !! 0%nat = Some [118%N]) then
          match parseFloatPart parts 1, parseFloatPart parts 2,
                parseFloatPart parts 3 with
          | Some x, Some y, Some z => (vertices ++ [mkVertex x y z], faces)
          | _, _, _ => acc
          end
        else if bool_decide (parts !! 0%nat = Some [102%N]) then
          (vertices, faces ++ triangulate (faceIdxs parts))
        else acc
  end.

Definition usedSetOf (faces : list (list Z)) : list Z :=
  foldl (fun usedSet face => foldl Set_add usedSet face) [] faces.

(** The loop over [usedIndices], [newIdx] counting from 0. *)
Fixpoint remapLoop (vertices : list Vertex) (usedIndices : list Z) (newIdx : nat)
    (acc : gmap Z nat * list (option Vertex)) : gmap Z nat * list (option Vertex) :=
  match usedIndices with
  | [] => acc
  | oldIdx :: rest =>
      let '(oldToNew, cleanVerts) := acc in
      remapLoop vertices rest (S newIdx)
        (<[oldIdx := newIdx]> oldToNew, cleanVerts ++ [arrayGet vertices oldIdx])
  end.

Definition parseOBJ (text : jsstring) : Mesh :=
  let lines := splitLines [] text in
  let '(vertices, faces) := foldl parseLine ([], []) lines in
  let usedSet := usedSetOf faces in
  let usedIndices := Array_sort (fun a b => (0 <? a - b)%Z) usedSet in
  let '(oldToNew, cleanVerts) := remapLoop vertices usedIndices 0 (∅, []) in
  let cleanFaces := map (fun f => map (fun oldIdx => oldToNew !! oldIdx) f) faces in
  mkMesh cleanVerts cleanFaces.

End parseOBJ.

Arguments mkVertex {number}.
Arguments mkMesh {number}.
Arguments meshVertices {number}.
Arguments meshFaces {number}.
Arguments parseOBJ {number}.

(** ** Vocabulary of the statements and sample data *)

(** The arithmetic mean of a list of numbers. *)
Definition mean (l : list R) : R := fold_right Rplus 0 l / INR (length l).

(** A triangle in the plane z = 0 whose normal is (0, 0, -1). *)
Definition triangleModel : Model3D :=
  new_Model3D
    [new_Vector3D 0 0 0; new_Vector3D 0 1 0; new_Vector3D 1 0 0]
    [[0; 1; 2]%nat] 2.5.

(** The quad of the diagram in the comment of [getFaceNormal]: vertex 0
    bottom left, 1 top left, 2 top right, 3 bottom right, in the plane
    z = 0.  Its normal is (0, 0, -4): it points to the camera. *)
Definition quadModel : Model3D :=
  new_Model3D
    [new_Vector3D (-1) (-1) 0; new_Vector3D (-1) 1 0;
     new_Vector3D 1 1 0; new_Vector3D 1 (-1) 0]
    [[0; 1; 2; 3]%nat] 2.5.

Definition quadApp : Application :=
  mkApplication quadModel (new_Renderer 800 800) 60.

(** The mesh of the data model: every face has at least 3 indices, all of
    them valid in the vertex array. *)
Definition wellFormedFace (this : Model3D) (faceIndices : list nat) : Prop :=
  (3 <= length faceIndices)%nat
  /\ Forall (fun idx => (idx < length (vertices this))%nat) faceIndices.

Definition wellFormed (this : Model3D) : Prop :=
  Forall (wellFormedFace this) (faces this).

(** Two triangles facing the camera, the first at depth 2 and the second at
    depth 5 once translated by 2.5. *)
Definition twoFaceModel : Model3D :=
  new_Model3D
    [new_Vector3D 0 0 (-0.5); new_Vector3D 0 1 (-0.5); new_Vector3D 1 0 (-0.5);
     new_Vector3D 0 0 2.5; new_Vector3D 0 1 2.5; new_Vector3D 1 0 2.5]
    [[0; 1; 2]%nat; [3; 4; 5]%nat] 2.5.

Definition twoFaceApp : Application :=
  mkApplication twoFaceModel (new_Renderer 800 800) 60.

(** The face is drawn in this frame: culling is off, or the face is visible. *)
Definition passesCulling (this : Application) (faceIndices : list nat) : bool :=
  wireframeMode (renderer this)
  || returns_true (isFaceVisible (model this) faceIndices).

(** The code units of an ASCII string. *)
Definition codeUnits (s : string) : jsstring :=
  map N_of_ascii (list_ascii_of_string s).

(** A stand-in for [parseFloat] on integer literals, to run the loader. *)
Definition parseFloatInteger (s : jsstring) : option Z := parseInt s.

(** An OBJ text: a comment, five vertices of which the third is in no face, a
    quad with texture and normal indices, a face line of two indices, and a
    face line naming a vertex that does not exist. *)
Definition sampleOBJ : jsstring :=
  codeUnits "# quad
v 0 0 0
v 1 0 0
v 5 5 5
v 1 1 0
v 0 1 0
f 1/1/1 2/2/1 4/3/1 5/4/1
f 1 2
f 1 2 9"%string.

(** [twoFaceModel] half a turn later: both triangles show their back. *)
Definition backFaceModel : Model3D :=
  mkModel3D (vertices twoFaceModel) (faces twoFaceModel) PI (position twoFaceModel).

Definition backFaceApp (wireframeMode : bool) : Application :=
  mkApplication backFaceModel
    (mkRenderer (new_Camera 800 800) wireframeMode
       (normalize (new_Vector3D 0.5 0.5 (-0.5)))) 60.


(** ** FPSCounter

    [performance.now()] is an input of the embedding: the constructor and
    [update] take the time they read. *)

Record FPSCounter : Type := mkFPSCounter {
  frameCount : nat;
  lastTime : R;
  currentFPS : nat
}.

Definition new_FPSCounter (now : R) : FPSCounter := mkFPSCounter 0 now 0.

(** [a >= b] on numbers, as a boolean. *)
Definition Rgeb (a b : R) : bool := if Rge_dec a b then true else false.

(** [update()] returns the counter after the call and [currentFPS]. *)
Definition FPSCounter_update (this : FPSCounter) (now : R) : FPSCounter * nat :=
  let frameCount := S (frameCount this) in
  let elapsed := now - lastTime this in
  let this :=
    if Rgeb elapsed 1000
    then mkFPSCounter 0 now frameCount
    else mkFPSCounter frameCount (lastTime this) (currentFPS this) in
  (this, currentFPS this).

(** ** Application.start

    [start] computes [dt = 0.5 / targetFPS] once and runs [loop]: update the
    model by [dt], render, schedule [loop] again.  A throw in [render] leaves
    the loop unscheduled.  [loopRuns n] is [n] runs of [loop] in a row, and
    [start n] is [start()] up to the end of the [n]-th run: the application
    then and the frames drawn, oldest first.  The delay between two runs is
    not modelled. *)

Definition loop (this : Application) (dt : R)
    : result (Application * list DrawCall) :=
  let this := update this dt in
  calls ← render this;
  Ok (this, calls).

Fixpoint loopRuns (n : nat) (this : Application) (dt : R)
    : result (Application * list (list DrawCall)) :=
  match n with
  | O => Ok (this, [])
  | S n' =>
      '(this, calls) ← loop this dt;
      '(this, frames) ← loopRuns n' this dt;
      Ok (this, calls :: frames)
  end.

Definition start (n : nat) (this : Application)
    : result (Application * list (list DrawCall)) :=
  let dt := 0.5 / targetFPS this in
  loopRuns n this dt.

(** ** More vocabulary of the statements *)

(** The vector [v] scaled by [k]. *)
Definition scale (k : R) (v : Vector3D) : Vector3D :=
  new_Vector3D (k * x v) (k * y v) (k * z v).

(** The arrays [vertices] and [faces] of [parseOBJ] after the loop over the
    lines, before the unused vertices are dropped. *)
Definition parseLines {number : Type} (parseFloat : jsstring -> option number)
    (text : jsstring) : list (Vertex number) * list (list Z) :=
  foldl (parseLine number parseFloat) ([], []) (splitLines [] text).

(** A vertex object of the loader read as a vector. *)
Definition toVector3D (v : Vertex R) : Vector3D :=
  new_Vector3D (vX R v) (vY R v) (vZ R v).

(** The points of the path a drawing operation traces. *)
Definition opPath (op : CanvasOp) : list ScreenPoint :=
  match op with
  | StrokePath _ path => path
  | FillStrokePath _ _ _ path => path
  end.

(** Where a vertex of the model lands on the canvas. *)
Definition screenPointOf (this : Renderer) (model : Model3D) (v : Vector3D)
    : ScreenPoint :=
  toScreenCoords (camera this) (project (camera this) (transformVertex model v)).

(** The counter after one call of [update] per time of [nows], in order. *)
Definition FPSCounter_updates (this : FPSCounter) (nows : list R) : FPSCounter :=
  foldl (fun counter now => fst (FPSCounter_update counter now)) this nows.

(** [a = b] on numbers, as a boolean. *)
Definition Reqb (a b : R) : bool := if Req_EM_T a b then true else false.

(** The second half of [parseOBJ]: the unused vertices dropped and the
    indices of the faces renumbered. *)
Definition cleanMesh {number : Type} (vertices : list (Vertex number))
    (faces : list (list Z)) : Mesh number :=
  let usedSet := usedSetOf faces in
  let usedIndices := Array_sort (fun a b => (0 <? a - b)%Z) usedSet in
  let '(oldToNew, cleanVerts) := remapLoop number vertices usedIndices 0 (∅, []) in
  let cleanFaces := map (fun f => map (fun oldIdx => oldToNew !! oldIdx) f) faces in
  mkMesh cleanVerts cleanFaces.

(** [new Model3D(mesh.vertices, mesh.faces, cameraDistance)] for a mesh of the
    loader without [undefined] entries; [None] when it has one. *)
Definition meshModel (mesh : Mesh R) (cameraDistance : R) : option Model3D :=
  vs ← mapM (fun v : option (Vertex R) => v) (meshVertices mesh);
  fs ← mapM (fun f : list (option nat) => mapM (fun i : option nat => i) f)
         (meshFaces mesh);
  Some (new_Model3D (map toVector3D vs) fs cameraDistance).

(** A stand-in for [parseFloat] on integer literals, returning numbers. *)
Definition parseFloatReal (s : jsstring) : option R := IZR <$> parseInt s.

(** An OBJ text of one triangle. *)
Definition triangleOBJ : jsstring :=
  codeUnits "v 0 0 0
v 0 1 0
v 1 0 0
f 1 2 3"%string.




(** Three triangles facing the camera at depths 2, 5 and 2: the first and
    the third tie. *)
Definition tieModel : Model3D :=
  new_Model3D
    [new_Vector3D 0 0 (-0.5); new_Vector3D 0 1 (-0.5); new_Vector3D 1 0 (-0.5);
     new_Vector3D 0 0 2.5; new_Vector3D 0 1 2.5; new_Vector3D 1 0 2.5;
     new_Vector3D 2 0 (-0.5); new_Vector3D 2 1 (-0.5); new_Vector3D 3 0 (-0.5)]
    [[0; 1; 2]%nat; [3; 4; 5]%nat; [6; 7; 8]%nat] 2.5.

Definition tieApp : Application :=
  mkApplication tieModel (new_Renderer 800 800) 60.
(** * Properties *)

(** ** Transformation *)

Lemma Vector3D_eq (a b : Vector3D) :
  x a = x b -> y a = y b -> z a = z b -> a = b.
Proof. destruct a, b; simpl; intros; subst; reflexivity. Qed.

Lemma sin_cos_sq (t : R) : sin t * sin t + cos t * cos t = 1.
Proof. exact (sin2_cos2 t). Qed.

Lemma rotateXZ_sq (v : Vector3D) (t : R) :
  x (rotateXZ v t) ^ 2 + y (rotateXZ v t) ^ 2 + z (rotateXZ v t) ^ 2
  = x v ^ 2 + y v ^ 2 + z v ^ 2.
Proof.
  simpl.
  transitivity ((x v ^ 2 + z v ^ 2) * (sin t * sin t + cos t * cos t) + y v ^ 2).
  - ring.
  - rewrite sin_cos_sq; ring.
Qed.

(** C7. [rotateXZ v theta] is
    [(x cos theta - z sin theta, y, x sin theta + z cos theta)]; it keeps the
    y-component and the magnitude of [v]; the angle 0 is the identity, and
    rotating by [theta] then by [- theta] gives [v] back. *)
Theorem rotateXZ_rotation (v : Vector3D) (theta : R) :
  rotateXZ v theta
    = new_Vector3D (x v * cos theta - z v * sin theta) (y v)
        (x v * sin theta + z v * cos theta)
  /\ y (rotateXZ v theta) = y v
  /\ magnitude (rotateXZ v theta) = magnitude v
  /\ rotateXZ v 0 = v
  /\ rotateXZ (rotateXZ v theta) (- theta) = v.
Proof.
  split; [reflexivity|].
  split; [reflexivity|].
  split; [unfold magnitude; now rewrite rotateXZ_sq|].
  split.
  - apply Vector3D_eq; simpl; rewrite ?cos_0, ?sin_0; ring.
  - apply Vector3D_eq; simpl; rewrite ?cos_neg, ?sin_neg.
    + transitivity (x v * (sin theta * sin theta + cos theta * cos theta));
        [ring | rewrite sin_cos_sq; ring].
    + reflexivity.
    + transitivity (z v * (sin theta * sin theta + cos theta * cos theta));
        [ring | rewrite sin_cos_sq; ring].
Qed.

(** ** Camera *)

(** C4. Where [z v] is not 0, [project v] is [(x v / z v, y v / z v, z v)]:
    the third component is kept; at depth 1 the point keeps its x and y, at
    depth 2 they are halved, at depth 0.5 they are doubled. *)
Theorem project_perspective (this : Camera) (v : Vector3D) (Hz : z v <> 0) :
  project this v = new_Vector3D (x v / z v) (y v / z v) (z v)
  /\ z (project this v) = z v
  /\ x (project this v) * z v = x v
  /\ y (project this v) * z v = y v
  /\ (z v = 1 -> x (project this v) = x v /\ y (project this v) = y v)
  /\ (z v = 2 -> x (project this v) = x v / 2 /\ y (project this v) = y v / 2)
  /\ (z v = 0.5 -> x (project this v) = 2 * x v /\ y (project this v) = 2 * y v).
Proof.
  repeat split; simpl;
    try match goal with H : z v = _ |- _ => rewrite H end;
    try (field; assumption); lra.
Qed.

Lemma project_perspective_witness :
  project (new_Camera 800 800) (new_Vector3D 3 4 2) = new_Vector3D (3 / 2) (4 / 2) 2
  /\ x (project (new_Camera 800 800) (new_Vector3D 3 4 2)) = 3 / 2.
Proof.
  assert (Hz : z (new_Vector3D 3 4 2) <> 0) by (simpl; lra).
  destruct (project_perspective (new_Camera 800 800) (new_Vector3D 3 4 2) Hz)
    as (Heq & _ & _ & _ & _ & Hhalf & _).
  split; [exact Heq | exact (proj1 (Hhalf eq_refl))].
Defined.

(** C5. [toScreenCoords p] is
    [((x p + 1) / 2 * width, (1 - (y p + 1) / 2) * height)] for every [p],
    in range or not: (0,0) is the centre of the canvas, (-1,-1) is (0, height),
    (1,1) is (width, 0), and a point beyond 1 lands beyond the canvas. *)
Theorem toScreenCoords_mapping (this : Camera) (p : Vector3D) :
  toScreenCoords this p
    = mkScreenPoint ((x p + 1) / 2 * canvasWidth this)
        ((1 - (y p + 1) / 2) * canvasHeight this)
  /\ toScreenCoords this (new_Vector3D 0 0 (z p))
     = mkScreenPoint (canvasWidth this / 2) (canvasHeight this / 2)
  /\ toScreenCoords this (new_Vector3D (-1) (-1) (z p))
     = mkScreenPoint 0 (canvasHeight this)
  /\ toScreenCoords this (new_Vector3D 1 1 (z p))
     = mkScreenPoint (canvasWidth this) 0
  /\ toScreenCoords this (new_Vector3D 3 (-3) (z p))
     = mkScreenPoint (2 * canvasWidth this) (2 * canvasHeight this).
Proof.
  unfold toScreenCoords; simpl.
  repeat split; f_equal; field.
Qed.

(** ** Shading *)

Lemma sumsq_pos (v : Vector3D) :
  v <> new_Vector3D 0 0 0 -> 0 < x v ^ 2 + y v ^ 2 + z v ^ 2.
Proof.
  intros Hv.
  destruct (Req_dec (x v) 0) as [Hx|Hx]; [|nra].
  destruct (Req_dec (y v) 0) as [Hy|Hy]; [|nra].
  destruct (Req_dec (z v) 0) as [Hz|Hz]; [|nra].
  exfalso; apply Hv; apply Vector3D_eq; assumption.
Qed.

Lemma magnitude_pos (v : Vector3D) :
  v <> new_Vector3D 0 0 0 -> 0 < magnitude v.
Proof. intros Hv; apply sqrt_lt_R0, sumsq_pos, Hv. Qed.

Lemma magnitude_sq (v : Vector3D) :
  magnitude v * magnitude v = x v ^ 2 + y v ^ 2 + z v ^ 2.
Proof. unfold magnitude; apply sqrt_sqrt; nra. Qed.

Lemma dot_normalize_l (v l : Vector3D) :
  dot (normalize v) l = dot v l / magnitude v.
Proof. unfold dot, normalize; simpl; unfold Rdiv; ring. Qed.

Lemma normalize_unit (v : Vector3D) :
  v <> new_Vector3D 0 0 0 -> dot (normalize v) (normalize v) = 1.
Proof.
  intros Hv. pose proof (magnitude_pos v Hv) as Hm.
  pose proof (magnitude_sq v) as Hsq.
  unfold dot, normalize; simpl.
  transitivity ((x v ^ 2 + y v ^ 2 + z v ^ 2) / (magnitude v * magnitude v)).
  - field; lra.
  - rewrite <- Hsq; field; lra.
Qed.

Lemma finalBrightness_floor (b : R) : 0 <= b -> 0.3 <= finalBrightness b.
Proof. unfold finalBrightness, minBrightness; intros; nra. Qed.

Lemma brightness_nonneg (l n : Vector3D) : 0 <= brightness l n.
Proof. apply Rmax_l. Qed.

(** C3. For a face whose rotated normal [r] is not the zero vector,
    [drawShadedFace] fills with [floor (255 * finalBrightness)] where
    [brightness = max 0 (dot (normalize r) lightDirection)] and
    [finalBrightness = 0.3 + brightness * (1 - 0.3)].  [finalBrightness] is at
    least 0.3; it is 0.3 when [r] is a negative multiple of the light
    direction, and 1 when the unit normal is the light direction. *)
Theorem drawShadedFace_shading (this : Renderer) (model : Model3D)
    (faceIndices : list nat) (screenPoints : list ScreenPoint) (normal : Vector3D)
    (Hnormal : getFaceNormal model faceIndices = Ok (Some normal))
    (Hnonzero : rotateXZ normal (rotation model) <> new_Vector3D 0 0 0)
    (Hpoints : screenPoints <> []) :
  let r := rotateXZ normal (rotation model) in
  let l := lightDirection this in
  let b := brightness l (normalize r) in
  b = Rmax 0 (dot (normalize r) l)
  /\ finalBrightness b = 0.3 + b * (1 - 0.3)
  /\ drawShadedFace this model faceIndices screenPoints
     = Ok (FillStrokePath (Zfloor (255 * finalBrightness b))
             (IZR (Zfloor (255 * finalBrightness b)) * 0.7) 1 screenPoints)
  /\ 0.3 <= finalBrightness b
  /\ ((exists k, k < 0 /\ x r = k * x l /\ y r = k * y l /\ z r = k * z l) ->
      b = 0 /\ finalBrightness b = 0.3)
  /\ (normalize r = l -> b = 1 /\ finalBrightness b = 1).
Proof.
  intros r l b.
  split; [reflexivity|].
  split; [reflexivity|].
  split.
  { unfold drawShadedFace. rewrite Hnormal. simpl.
    destruct screenPoints as [|p ps]; [contradiction|]. reflexivity. }
  split; [apply finalBrightness_floor, brightness_nonneg|].
  split.
  - intros (k & Hk & Hx & Hy & Hz).
    assert (Hb : b = 0).
    { unfold b, brightness. rewrite dot_normalize_l.
      pose proof (Rinv_0_lt_compat _ (magnitude_pos r Hnonzero)) as Hm.
      assert (Hdot : dot r l <= 0) by (unfold dot; rewrite Hx, Hy, Hz; nra).
      apply Rmax_left. unfold Rdiv. nra. }
    split; [exact Hb|].
    rewrite Hb. unfold finalBrightness, minBrightness. lra.
  - intros Hl.
    assert (Hb : b = 1).
    { unfold b, brightness. rewrite <- Hl.
      rewrite (normalize_unit r Hnonzero). apply Rmax_right. lra. }
    split; [exact Hb|].
    rewrite Hb. unfold finalBrightness, minBrightness. lra.
Qed.

Lemma drawShadedFace_shading_witness :
  0.3 <= finalBrightness
           (brightness (lightDirection (new_Renderer 800 800))
              (normalize
                 (rotateXZ
                    (cross (subtract (new_Vector3D 0 1 0) (new_Vector3D 0 0 0))
                       (subtract (new_Vector3D 1 0 0) (new_Vector3D 0 0 0)))
                    (rotation triangleModel)))).
Proof.
  refine (proj1 (proj2 (proj2 (proj2
    (drawShadedFace_shading (new_Renderer 800 800) triangleModel [0; 1; 2]%nat
       [mkScreenPoint 0 0] _ eq_refl _ _))))).
  - intros H. apply (f_equal z) in H. simpl in H.
    rewrite cos_0, sin_0 in H. lra.
  - discriminate.
Defined.

(** ** Depth key *)

Lemma getAverageDepth_loop_sum (this : Model3D) (faceIndices : list nat)
    (vs : list Vector3D) (sumZ : R) :
  Forall2 (fun idx v => vertices this !! idx = Some v) faceIndices vs ->
  getAverageDepth_loop this faceIndices sumZ
  = Ok (sumZ + fold_right Rplus 0 (map (fun v => z (transformVertex this v)) vs)).
Proof.
  intros H. revert sumZ.
  induction H as [|idx v rest vs' Hv _ IH]; intros sumZ; simpl.
  - f_equal; ring.
  - rewrite Hv; simpl. rewrite IH. f_equal; simpl; ring.
Qed.

Lemma sum_shift (c : R) (g : Vector3D -> R) (vs : list Vector3D) :
  fold_right Rplus 0 (map (fun v => g v + c) vs)
  = fold_right Rplus 0 (map g vs) + INR (length vs) * c.
Proof.
  induction vs as [|v vs IH]; [simpl; ring|].
  change (length (v :: vs)) with (S (length vs)). rewrite S_INR.
  simpl. rewrite IH. ring.
Qed.

(** C6. Where [vs] are the vertices a non-empty face names,
    [getAverageDepth face] is the mean of the z-components of the vertices
    rotated and then translated by [position.z], which is what
    [transformVertex] computes; it is also [position.z] plus the mean of the
    rotated z-components. *)
Theorem getAverageDepth_mean (this : Model3D) (faceIndices : list nat)
    (vs : list Vector3D)
    (Hvs : Forall2 (fun idx v => vertices this !! idx = Some v) faceIndices vs)
    (Hne : faceIndices <> []) :
  getAverageDepth this faceIndices
    = Ok (mean (map (fun v =>
            z (translateZ (rotateXZ v (rotation this)) (z (position this)))) vs))
  /\ (forall v, translateZ (rotateXZ v (rotation this)) (z (position this))
                = transformVertex this v)
  /\ getAverageDepth this faceIndices
     = Ok (z (position this)
           + mean (map (fun v => z (rotateXZ v (rotation this))) vs)).
Proof.
  pose proof (Forall2_length _ _ _ Hvs) as Hlen.
  assert (Hpos : INR (length vs) <> 0).
  { apply not_0_INR. rewrite <- Hlen. destruct faceIndices; [contradiction|discriminate]. }
  assert (Hd : getAverageDepth this faceIndices
               = Ok (mean (map (fun v => z (transformVertex this v)) vs))).
  { unfold getAverageDepth. rewrite (getAverageDepth_loop_sum _ _ vs 0 Hvs). simpl.
    unfold mean. rewrite length_map, Hlen. f_equal. f_equal. ring. }
  split; [exact Hd|].
  split; [reflexivity|].
  rewrite Hd. f_equal. unfold mean. rewrite !length_map.
  change (fun v => z (transformVertex this v))
    with (fun v => z (rotateXZ v (rotation this)) + z (position this)).
  rewrite sum_shift. field. exact Hpos.
Qed.

Lemma getAverageDepth_mean_witness :
  getAverageDepth triangleModel [0; 1; 2]%nat
  = Ok (z (position triangleModel)
        + mean (map (fun v => z (rotateXZ v (rotation triangleModel)))
                  [new_Vector3D 0 0 0; new_Vector3D 0 1 0; new_Vector3D 1 0 0])).
Proof.
  refine (proj2 (proj2 (getAverageDepth_mean triangleModel [0; 1; 2]%nat
    [new_Vector3D 0 0 0; new_Vector3D 0 1 0; new_Vector3D 1 0 0] _ _))).
  - repeat constructor.
  - discriminate.
Defined.

(** ** Visibility *)

Lemma Rltb_true (a b : R) : Rltb a b = true <-> a < b.
Proof. unfold Rltb; destruct (Rlt_dec a b); split; intros; try lra; try discriminate; auto. Qed.

Lemma Rltb_false (a b : R) : Rltb a b = false <-> ~ a < b.
Proof. unfold Rltb; destruct (Rlt_dec a b); split; intros; try discriminate; try contradiction; auto. Qed.

Lemma getFaceNormal_cross (this : Model3D) (faceIndices : list nat)
    (v0 v1 v2 : Vector3D) :
  faceVertex this faceIndices 0 = Some v0 ->
  faceVertex this faceIndices 1 = Some v1 ->
  faceVertex this faceIndices 2 = Some v2 ->
  getFaceNormal this faceIndices
  = Ok (Some (cross (subtract v1 v0) (subtract v2 v0))).
Proof.
  intros H0 H1 H2. unfold getFaceNormal.
  destruct (Nat.ltb_spec (length faceIndices) 3) as [Hlt|Hge].
  - exfalso. unfold faceVertex in H2.
    destruct (faceIndices !! 2%nat) as [i|] eqn:Hi; [|discriminate].
    apply lookup_lt_Some in Hi. lia.
  - rewrite H0, H1, H2. reflexivity.
Qed.

Lemma rotateXZ_PI_z (n : Vector3D) (theta : R) :
  z (rotateXZ n (theta + PI)) = - z (rotateXZ n theta).
Proof. simpl. rewrite neg_cos, neg_sin. ring. Qed.









(** C9. For a face of fewer than 3 indices [getFaceNormal] returns null
    and [isFaceVisible] returns true; the frame loop does not skip such a
    face: it hands it to [drawFace] in either mode. *)
Theorem malformed_face_not_culled (this : Application) (faceIndices : list nat)
    (Hlen : (length faceIndices < 3)%nat) :
  getFaceNormal (model this) faceIndices = Ok None
  /\ isFaceVisible (model this) faceIndices = Ok true
  /\ renderFace this faceIndices <> Ok None
  /\ renderFace this faceIndices
     = (op ← drawFace (renderer this) (model this) faceIndices;
        Ok (Some (mkDrawCall faceIndices op))).
Proof.
  assert (Hn : getFaceNormal (model this) faceIndices = Ok None).
  { unfold getFaceNormal. destruct (Nat.ltb_spec (length faceIndices) 3); [reflexivity|lia]. }
  assert (Hv : isFaceVisible (model this) faceIndices = Ok true).
  { unfold isFaceVisible. rewrite Hn. reflexivity. }
  assert (Hr : renderFace this faceIndices
     = (op ← drawFace (renderer this) (model this) faceIndices;
        Ok (Some (mkDrawCall faceIndices op)))).
  { unfold renderFace. rewrite Hv. destruct (wireframeMode (renderer this)); reflexivity. }
  repeat split; try assumption.
  rewrite Hr. destruct (drawFace _ _ _); discriminate.
Qed.

(** What follows for such a face in shaded mode: [drawShadedFace] passes the
    null normal to [rotateXZ], which throws. *)
Lemma drawShadedFace_null_normal (this : Renderer) (model : Model3D)
    (faceIndices : list nat) (screenPoints : list ScreenPoint) :
  (length faceIndices < 3)%nat ->
  drawShadedFace this model faceIndices screenPoints = TypeError.
Proof.
  intros Hlen. unfold drawShadedFace, getFaceNormal.
  destruct (Nat.ltb_spec (length faceIndices) 3); [reflexivity|lia].
Qed.

Lemma malformed_face_not_culled_witness :
  isFaceVisible (model quadApp) [0; 1]%nat = Ok true
  /\ renderFace quadApp [0; 1]%nat <> Ok None.
Proof.
  destruct (malformed_face_not_culled quadApp [0; 1]%nat ltac:(simpl; lia))
    as (_ & Hv & Hr & _).
  split; assumption.
Defined.

(** ** Array.prototype.sort on a consistent comparator *)

Section Array_sort_spec.

Context {A : Type} (gt : A -> A -> bool) (le : A -> A -> Prop).

Lemma sort_insert_perm (a : A) (l : list A) :
  Permutation (sort_insert gt a l) (a :: l).
Proof.
  induction l as [|b l IH]; simpl; [reflexivity|].
  destruct (gt a b); [|reflexivity].
  rewrite IH. apply perm_swap.
Qed.

Lemma Array_sort_perm (l : list A) : Permutation (Array_sort gt l) l.
Proof.
  induction l as [|a l IH]; simpl; [reflexivity|].
  rewrite sort_insert_perm, IH. reflexivity.
Qed.

Hypothesis le_trans : forall a b c, le a b -> le b c -> le a c.
Hypothesis gt_true : forall a b, gt a b = true -> le b a.
Hypothesis gt_false : forall a b, gt a b = false -> le a b.

Lemma sort_insert_sorted (a : A) (l : list A) :
  StronglySorted le l -> StronglySorted le (sort_insert gt a l).
Proof using le_trans gt_true gt_false.
  induction 1 as [|b l Hs IH Hb]; simpl.
  - repeat constructor.
  - destruct (gt a b) eqn:Hgt.
    + constructor; [exact IH|].
      rewrite (sort_insert_perm a l). constructor; [auto|exact Hb].
    + constructor; [constructor; assumption|].
      constructor; [auto|].
      eapply Forall_impl; [exact Hb|]. intros c Hc. eauto.
Qed.

Lemma Array_sort_sorted (l : list A) : StronglySorted le (Array_sort gt l).
Proof using le_trans gt_true gt_false.
  induction l as [|a l IH]; simpl; [constructor|].
  apply sort_insert_sorted, IH.
Qed.

End Array_sort_spec.

Lemma StronglySorted_lookup_lt {A : Type} (R : A -> A -> Prop) (l : list A)
    (i j : nat) (a b : A) :
  StronglySorted R l -> l !! i = Some a -> l !! j = Some b -> (i < j)%nat -> R a b.
Proof.
  intros Hs. revert i j.
  induction Hs as [|c l Hs IH Hc]; intros i j Hi Hj Hlt; [discriminate|].
  destruct j as [|j]; [lia|]. simpl in Hj.
  destruct i as [|i]; simpl in Hi.
  - injection Hi as ->. rewrite Forall_forall in Hc. apply Hc.
    eapply list_elem_of_lookup_2; eauto.
  - eapply IH; eauto. lia.
Qed.

Lemma StronglySorted_filter {A : Type} (R : A -> A -> Prop) (p : A -> bool)
    (l : list A) :
  StronglySorted R l -> StronglySorted R (List.filter p l).
Proof.
  induction 1 as [|a l Hs IH Ha]; simpl; [constructor|].
  destruct (p a); [|exact IH].
  constructor; [exact IH|].
  rewrite Forall_forall in *. intros b Hb. apply Ha.
  apply list_elem_of_In, List.filter_In in Hb.
  apply list_elem_of_In. tauto.
Qed.

(** ** The frame on a well-formed mesh *)

Section frame.

Variable this : Application.

Lemma wellFormedFace_vertices (f : list nat) :
  Forall (fun idx => (idx < length (vertices (model this)))%nat) f ->
  exists vs, Forall2 (fun idx v => vertices (model this) !! idx = Some v) f vs.
Proof.
  induction 1 as [|idx f Hidx _ [vs IH]]; [exists []; constructor|].
  destruct (lookup_lt_is_Some_2 _ _ Hidx) as [v Hv].
  exists (v :: vs). constructor; assumption.
Qed.

Lemma wellFormedFace_depth (f : list nat) :
  wellFormedFace (model this) f -> exists d, getAverageDepth (model this) f = Ok d.
Proof.
  intros [_ Hidx]. destruct (wellFormedFace_vertices f Hidx) as [vs Hvs].
  unfold getAverageDepth.
  rewrite (getAverageDepth_loop_sum _ _ vs 0 Hvs). simpl. eauto.
Qed.

Lemma wellFormedFace_normal (f : list nat) :
  wellFormedFace (model this) f ->
  exists n, getFaceNormal (model this) f = Ok (Some n).
Proof.
  intros [Hlen Hidx].
  destruct f as [|i0 [|i1 [|i2 f]]]; simpl in Hlen; try lia.
  inversion Hidx as [|? ? H0 Hidx1]; subst.
  inversion Hidx1 as [|? ? H1 Hidx2]; subst.
  inversion Hidx2 as [|? ? H2 _]; subst.
  destruct (lookup_lt_is_Some_2 _ _ H0) as [v0 Hv0].
  destruct (lookup_lt_is_Some_2 _ _ H1) as [v1 Hv1].
  destruct (lookup_lt_is_Some_2 _ _ H2) as [v2 Hv2].
  eexists. apply (getFaceNormal_cross _ _ v0 v1 v2); assumption.
Qed.

Lemma wellFormedFace_visible (f : list nat) :
  wellFormedFace (model this) f ->
  exists b, isFaceVisible (model this) f = Ok b.
Proof.
  intros Hwf. destruct (wellFormedFace_normal f Hwf) as [n Hn].
  unfold isFaceVisible. rewrite Hn. simpl. eauto.
Qed.

Lemma screenPointsOf_valid (f : list nat) :
  Forall (fun idx => (idx < length (vertices (model this)))%nat) f ->
  exists ps, screenPointsOf (renderer this) (model this) f = Ok ps
             /\ length ps = length f.
Proof.
  induction 1 as [|idx f Hidx _ (ps & IH & Hlen)]; [exists []; split; reflexivity|].
  destruct (lookup_lt_is_Some_2 _ _ Hidx) as [v Hv].
  eexists. simpl. rewrite Hv, IH. simpl. split; [reflexivity|].
  simpl. now rewrite Hlen.
Qed.

Lemma wellFormedFace_drawFace (f : list nat) :
  wellFormedFace (model this) f ->
  exists op, drawFace (renderer this) (model this) f = Ok op.
Proof.
  intros Hwf. destruct (wellFormedFace_normal f Hwf) as [n Hn].
  destruct Hwf as [Hlen Hidx].
  destruct (screenPointsOf_valid f Hidx) as (ps & Hps & Hl).
  unfold drawFace. rewrite Hps. simpl.
  destruct ps as [|p ps]; [simpl in Hl; lia|].
  destruct (wireframeMode (renderer this)).
  - eexists; reflexivity.
  - unfold drawShadedFace. rewrite Hn. simpl. eexists; reflexivity.
Qed.

Lemma renderFace_returns (f : list nat) (call : option DrawCall) :
  renderFace this f = Ok call ->
  option_map drawnFace call = if passesCulling this f then Some f else None.
Proof.
  unfold renderFace, passesCulling.
  destruct (wireframeMode (renderer this)); simpl.
  - destruct (drawFace _ _ f); [|discriminate]. now intros [= <-].
  - destruct (isFaceVisible (model this) f) as [[|]|]; simpl; try discriminate.
    + destruct (drawFace _ _ f); [|discriminate]. now intros [= <-].
    + now intros [= <-].
Qed.

Lemma renderLoop_returns (l : list FaceWithDepth) (calls : list DrawCall) :
  renderLoop this l = Ok calls ->
  map drawnFace calls = List.filter (passesCulling this) (map face l).
Proof.
  revert calls. induction l as [|fd l IH]; intros calls; simpl.
  - now intros [= <-].
  - destruct (renderFace this (face fd)) as [call|] eqn:Hcall; [|discriminate].
    destruct (renderLoop this l) as [calls'|]; [|discriminate].
    simpl. intros [= <-]. apply renderFace_returns in Hcall.
    specialize (IH calls' eq_refl).
    destruct (passesCulling this (face fd)), call as [c|]; try discriminate; simpl.
    + injection Hcall as ->. now rewrite IH.
    + exact IH.
Qed.

Lemma facesWithDepthOf_returns (fs : list (list nat)) (fds : list FaceWithDepth) :
  facesWithDepthOf (model this) fs = Ok fds ->
  map face fds = fs
  /\ Forall (fun fd => getAverageDepth (model this) (face fd) = Ok (depth fd)) fds.
Proof.
  revert fds. induction fs as [|f fs IH]; intros fds; simpl.
  - intros [= <-]. split; [reflexivity|constructor].
  - destruct (getAverageDepth (model this) f) as [d|] eqn:Hd; [|discriminate].
    destruct (facesWithDepthOf (model this) fs) as [fds'|]; [|discriminate].
    simpl. intros [= <-]. destruct (IH fds' eq_refl) as [Hmap Hp].
    split; [simpl; now rewrite Hmap|]. constructor; [exact Hd|exact Hp].
Qed.

Lemma facesWithDepthOf_wellFormed (fs : list (list nat)) :
  Forall (wellFormedFace (model this)) fs ->
  exists fds, facesWithDepthOf (model this) fs = Ok fds.
Proof.
  induction 1 as [|f fs Hf _ (fds & IH)]; [exists []; reflexivity|].
  destruct (wellFormedFace_depth f Hf) as [d Hdf].
  simpl. rewrite Hdf, IH. simpl. eauto.
Qed.

Lemma renderLoop_wellFormed (l : list FaceWithDepth) :
  Forall (fun fd => wellFormedFace (model this) (face fd)) l ->
  exists calls, renderLoop this l = Ok calls.
Proof.
  induction 1 as [|fd l Hfd _ (calls & IH)]; [exists []; reflexivity|].
  destruct (wellFormedFace_visible _ Hfd) as [b Hb].
  destruct (wellFormedFace_drawFace _ Hfd) as [op Hop].
  simpl. unfold renderFace. rewrite Hb, Hop, IH.
  destruct (wireframeMode (renderer this)), b; simpl; eauto.
Qed.

Lemma byDepthDescending_sorted (l : list FaceWithDepth) :
  StronglySorted (fun a b => depth a >= depth b) (Array_sort byDepthDescending l).
Proof.
  apply Array_sort_sorted.
  - intros a b c; lra.
  - intros a b Hgt. apply Rltb_true in Hgt. lra.
  - intros a b Hgt. apply Rltb_false in Hgt. lra.
Qed.

Lemma render_returns (calls : list DrawCall) :
  render this = Ok calls ->
  exists sorted,
    sortedFaces this = Ok sorted
    /\ Permutation (map face sorted) (faces (model this))
    /\ Forall (fun fd => getAverageDepth (model this) (face fd) = Ok (depth fd))
         sorted
    /\ StronglySorted (fun a b => depth a >= depth b) sorted
    /\ map drawnFace calls = List.filter (passesCulling this) (map face sorted).
Proof.
  unfold render, sortedFaces.
  destruct (facesWithDepthOf (model this) (faces (model this))) as [fds|] eqn:Hfds;
    [|discriminate].
  simpl. intros Hloop.
  destruct (facesWithDepthOf_returns _ _ Hfds) as [Hmap Hpair].
  pose proof (Array_sort_perm byDepthDescending fds) as Hperm.
  eexists. split; [reflexivity|].
  split; [rewrite <- Hmap; now apply Permutation_map|].
  split; [now rewrite Hperm|].
  split; [apply byDepthDescending_sorted|].
  apply renderLoop_returns, Hloop.
Qed.

Lemma render_wellFormed :
  wellFormed (model this) -> exists calls, render this = Ok calls.
Proof.
  intros Hwf.
  destruct (facesWithDepthOf_wellFormed _ Hwf) as (fds & Hfds).
  destruct (facesWithDepthOf_returns _ _ Hfds) as [Hmap _].
  unfold render, sortedFaces. rewrite Hfds. simpl.
  apply renderLoop_wellFormed.
  rewrite (Array_sort_perm byDepthDescending fds).
  unfold wellFormed in Hwf. rewrite <- Hmap in Hwf.
  exact (proj1 (List.Forall_map face _ fds) Hwf).
Qed.

End frame.

Lemma filter_all {A : Type} (p : A -> bool) (l : list A) :
  (forall a, In a l -> p a = true) -> List.filter p l = l.
Proof.
  induction l as [|a l IH]; intros Hp; simpl; [reflexivity|].
  rewrite (Hp a (or_introl eq_refl)), IH; [reflexivity|].
  intros b Hb. apply Hp. now right.
Qed.

Lemma filter_none {A : Type} (p : A -> bool) (l : list A) :
  (forall a, In a l -> p a = false) -> List.filter p l = [].
Proof.
  induction l as [|a l IH]; intros Hp; simpl; [reflexivity|].
  rewrite (Hp a (or_introl eq_refl)). apply IH.
  intros b Hb. apply Hp. now right.
Qed.

(** C8. Whenever [render] completes, which it does on every well-formed
    mesh, it has drawn, in wireframe mode, every face of the depth-sorted list
    (which holds every face of the mesh), back faces included; with wireframe
    mode off it has drawn exactly the faces of that list for which
    [isFaceVisible] returns true. *)
Theorem render_culling (this : Application) :
  (wellFormed (model this) -> exists calls, render this = Ok calls)
  /\ forall calls, render this = Ok calls ->
       exists sorted,
         sortedFaces this = Ok sorted
         /\ Permutation (map face sorted) (faces (model this))
         /\ (wireframeMode (renderer this) = true ->
             map drawnFace calls = map face sorted)
         /\ (wireframeMode (renderer this) = false ->
             map drawnFace calls
             = List.filter (fun f => returns_true (isFaceVisible (model this) f))
                 (map face sorted)).
Proof.
  split; [apply render_wellFormed|].
  intros calls Hr.
  destruct (render_returns this calls Hr) as (sorted & Hs & Hperm & _ & _ & Hdrawn).
  exists sorted. repeat split; try assumption.
  - intros Hw. rewrite Hdrawn. apply filter_all.
    intros f _. unfold passesCulling. now rewrite Hw.
  - intros Hw. rewrite Hdrawn. apply List.filter_ext.
    intros f. unfold passesCulling. now rewrite Hw.
Qed.

Lemma StronglySorted_faces (m : Model3D) (l : list FaceWithDepth) :
  StronglySorted (fun a b => depth a >= depth b) l ->
  Forall (fun fd => getAverageDepth m (face fd) = Ok (depth fd)) l ->
  StronglySorted
    (fun f g => forall df dg, getAverageDepth m f = Ok df ->
                              getAverageDepth m g = Ok dg -> df >= dg)
    (map face l).
Proof.
  induction 1 as [|a l Hs IH Ha]; intros Hp; simpl; [constructor|].
  inversion Hp as [|? ? Hpa Hpl]; subst.
  constructor; [auto|].
  apply Forall_forall. intros g Hg df dg Hdf Hdg.
  apply list_elem_of_In, List.in_map_iff in Hg. destruct Hg as (b & <- & Hb).
  apply list_elem_of_In in Hb.
  pose proof (proj1 (Forall_forall _ _) Ha b Hb) as Hab.
  rewrite Hpa in Hdf. rewrite (proj1 (Forall_forall _ _) Hpl b Hb) in Hdg.
  injection Hdf as <-. injection Hdg as <-. auto.
Qed.

(** C2. Whenever [render] completes, which it does on every well-formed
    mesh, it has paired every face with its [getAverageDepth], ordered the
    pairs by descending depth, and made its calls to [drawFace] in that order:
    a drawn face of greater depth is drawn before a drawn face of smaller
    depth. *)
Theorem render_painters_order (this : Application) :
  (wellFormed (model this) -> exists calls, render this = Ok calls)
  /\ forall calls, render this = Ok calls ->
       exists sorted,
         sortedFaces this = Ok sorted
         /\ Permutation (map face sorted) (faces (model this))
         /\ Forall (fun fd => getAverageDepth (model this) (face fd)
                              = Ok (depth fd)) sorted
         /\ StronglySorted (fun a b => depth a >= depth b) sorted
         /\ (forall (i j : nat) (f g : list nat) (df dg : R),
               map drawnFace calls !! i = Some f ->
               map drawnFace calls !! j = Some g ->
               getAverageDepth (model this) f = Ok df ->
               getAverageDepth (model this) g = Ok dg ->
               df > dg -> (i < j)%nat).
Proof.
  split; [apply render_wellFormed|].
  intros calls Hr.
  destruct (render_returns this calls Hr)
    as (sorted & Hs & Hperm & Hpair & Hsorted & Hdrawn).
  exists sorted. repeat split; try assumption.
  intros i j f g df dg Hi Hj Hdf Hdg Hgt.
  pose proof (StronglySorted_filter _ (passesCulling this) _
                (StronglySorted_faces _ _ Hsorted Hpair)) as Hss.
  rewrite <- Hdrawn in Hss.
  destruct (Nat.lt_total i j) as [Hlt|[Heq|Hlt]]; [exact Hlt|exfalso..].
  - subst j. rewrite Hi in Hj. injection Hj as <-.
    rewrite Hdf in Hdg. injection Hdg as <-. lra.
  - pose proof (StronglySorted_lookup_lt _ _ _ _ _ _ Hss Hj Hi Hlt _ _ Hdg Hdf).
    lra.
Qed.

Lemma twoFaceModel_wellFormed : wellFormed (model twoFaceApp).
Proof. repeat constructor; simpl; lia. Qed.

Lemma twoFaceModel_depths :
  getAverageDepth twoFaceModel [0; 1; 2]%nat = Ok 2
  /\ getAverageDepth twoFaceModel [3; 4; 5]%nat = Ok 5.
Proof.
  unfold getAverageDepth; simpl; rewrite cos_0, sin_0.
  split; f_equal; lra.
Qed.

Lemma twoFaceModel_visible :
  isFaceVisible twoFaceModel [0; 1; 2]%nat = Ok true
  /\ isFaceVisible twoFaceModel [3; 4; 5]%nat = Ok true.
Proof.
  unfold isFaceVisible; simpl; rewrite cos_0, sin_0.
  split; f_equal; apply Rltb_true; lra.
Qed.

Lemma backFaceModel_wellFormed : wellFormed backFaceModel.
Proof. repeat constructor; simpl; lia. Qed.

Lemma backFaceModel_hidden :
  isFaceVisible backFaceModel [0; 1; 2]%nat = Ok false
  /\ isFaceVisible backFaceModel [3; 4; 5]%nat = Ok false.
Proof.
  unfold isFaceVisible; simpl; rewrite cos_PI, sin_PI.
  split; f_equal; apply Rltb_false; lra.
Qed.

(** Back faces: wireframe mode draws both, shaded mode draws none. *)
Example backFaceApp_wireframe :
  exists calls,
    render (backFaceApp true) = Ok calls
    /\ Permutation (map drawnFace calls) [[0; 1; 2]; [3; 4; 5]]%nat.
Proof.
  destruct (render_wellFormed (backFaceApp true) backFaceModel_wellFormed)
    as [calls Hr].
  destruct (render_returns _ calls Hr) as (sorted & _ & Hperm & _ & _ & Hdrawn).
  exists calls. split; [exact Hr|].
  rewrite Hdrawn, filter_all; [exact Hperm|]. reflexivity.
Qed.

Example backFaceApp_shaded : render (backFaceApp false) = Ok [].
Proof.
  destruct (render_wellFormed (backFaceApp false) backFaceModel_wellFormed)
    as [calls Hr].
  destruct (render_returns _ calls Hr) as (sorted & _ & Hperm & _ & _ & Hdrawn).
  destruct backFaceModel_hidden as [Hnear Hfar].
  rewrite filter_none in Hdrawn.
  - apply List.map_eq_nil in Hdrawn. now rewrite Hr, Hdrawn.
  - intros f Hf. apply (Permutation_in _ Hperm) in Hf.
    unfold passesCulling. change (model (backFaceApp false)) with backFaceModel.
    destruct Hf as [<-|[<-|[]]]; [now rewrite Hnear | now rewrite Hfar].
Qed.

Lemma render_culling_witness :
  exists calls,
    render twoFaceApp = Ok calls
    /\ Permutation (map drawnFace calls) [[0; 1; 2]; [3; 4; 5]]%nat.
Proof.
  destruct (render_culling twoFaceApp) as [Htotal Hdrawn].
  destruct (Htotal twoFaceModel_wellFormed) as [calls Hr].
  destruct (Hdrawn calls Hr) as (sorted & _ & Hperm & _ & Hshaded).
  exists calls. split; [exact Hr|].
  rewrite (Hshaded eq_refl), <- Hperm.
  rewrite filter_all; [reflexivity|].
  intros f Hf. apply (Permutation_in _ Hperm) in Hf.
  destruct twoFaceModel_visible as [Hnear Hfar].
  change (model twoFaceApp) with twoFaceModel.
  destruct Hf as [<-|[<-|[]]]; [now rewrite Hnear | now rewrite Hfar].
Defined.

Lemma render_painters_order_witness :
  exists calls,
    render twoFaceApp = Ok calls
    /\ map drawnFace calls = [[3; 4; 5]; [0; 1; 2]]%nat.
Proof.
  destruct (render_painters_order twoFaceApp) as [Htotal Hordered].
  destruct (Htotal twoFaceModel_wellFormed) as [calls Hr].
  destruct (Hordered calls Hr) as (sorted & _ & _ & _ & _ & Horder).
  destruct (render_returns twoFaceApp calls Hr)
    as (sorted' & _ & Hperm & _ & _ & Hdrawn).
  exists calls. split; [exact Hr|].
  destruct twoFaceModel_visible as [Hnear Hfar].
  destruct twoFaceModel_depths as [Hd2 Hd5].
  rewrite filter_all in Hdrawn.
  2:{ intros f Hf. apply (Permutation_in _ Hperm) in Hf.
      unfold passesCulling. change (model twoFaceApp) with twoFaceModel.
      destruct Hf as [<-|[<-|[]]]; [now rewrite Hnear | now rewrite Hfar]. }
  rewrite <- Hdrawn in Hperm. simpl in Hperm.
  symmetry in Hperm. apply Permutation_length_2_inv in Hperm.
  destruct Hperm as [Heq|Heq]; [|exact Heq].
  exfalso. rewrite Heq in Horder.
  specialize (Horder 1%nat 0%nat _ _ 5 2 eq_refl eq_refl Hd5 Hd2 ltac:(lra)).
  lia.
Defined.

(** ** parseOBJ *)

Lemma fanFrom_triangles (first : Z) (others : list Z) :
  Forall (fun f => length f = 3%nat) (fanFrom first others).
Proof.
  induction others as [|a others IH]; simpl; [constructor|].
  destruct others as [|b others]; [constructor|].
  constructor; [reflexivity|exact IH].
Qed.

Lemma triangulate_triangles (idxs : list Z) :
  Forall (fun f => length f = 3%nat) (triangulate idxs).
Proof.
  unfold triangulate. destruct (3 <=? length idxs)%nat; [|constructor].
  destruct idxs; [constructor|apply fanFrom_triangles].
Qed.

(** A face line of [n >= 3] indices gives [n - 2] triangles, a shorter one
    none. *)
Lemma fanFrom_length (first : Z) (others : list Z) :
  length (fanFrom first others) = (length others - 1)%nat.
Proof.
  induction others as [|a others IH]; simpl; [reflexivity|].
  destruct others as [|b others]; [reflexivity|].
  simpl in IH |- *. rewrite IH. lia.
Qed.

Lemma triangulate_length (idxs : list Z) :
  length (triangulate idxs) = (length idxs - 2)%nat.
Proof.
  unfold triangulate. destruct (Nat.leb_spec 3 (length idxs)) as [Hge|Hlt].
  - destruct idxs as [|first others]; [reflexivity|].
    rewrite fanFrom_length. simpl. lia.
  - simpl. lia.
Qed.

Lemma Set_add_elem (s : list Z) (idx i : Z) :
  i ∈ Set_add s idx <-> i ∈ s \/ i = idx.
Proof.
  unfold Set_add. case_bool_decide as Hin.
  - split; [auto|]. intros [H| ->]; assumption.
  - rewrite elem_of_app, list_elem_of_singleton. reflexivity.
Qed.

Lemma foldl_Set_add_elem (face : list Z) (s : list Z) (i : Z) :
  i ∈ foldl Set_add s face <-> i ∈ s \/ i ∈ face.
Proof.
  revert s. induction face as [|idx face IH]; intros s; simpl.
  - rewrite elem_of_nil. tauto.
  - rewrite IH, Set_add_elem, elem_of_cons. tauto.
Qed.

Lemma usedSet_elem (faces : list (list Z)) (s : list Z) (i : Z) :
  i ∈ foldl (fun usedSet face => foldl Set_add usedSet face) s faces
  <-> i ∈ s \/ exists f, f ∈ faces /\ i ∈ f.
Proof.
  revert s. induction faces as [|f faces IH]; intros s; simpl.
  - split; [auto|]. intros [H|(f & Hf & _)]; [exact H|]. now apply elem_of_nil in Hf.
  - rewrite IH, foldl_Set_add_elem. split.
    + intros [[H|H]|(g & Hg & Hi)]; [auto| |].
      * right. exists f. split; [left|exact H].
      * right. exists g. split; [now right|exact Hi].
    + intros [H|(g & Hg & Hi)]; [auto|].
      apply elem_of_cons in Hg. destruct Hg as [->|Hg]; [auto|].
      right. exists g. auto.
Qed.

Section parseOBJ_spec.

Context {number : Type} (parseFloat : jsstring -> option number).

Lemma parseLine_triangles (acc : list (Vertex number) * list (list Z))
    (raw : jsstring) :
  Forall (fun f => length f = 3%nat) (snd acc) ->
  Forall (fun f => length f = 3%nat) (snd (parseLine number parseFloat acc raw)).
Proof.
  destruct acc as [vs fs]. intros Hfs. unfold parseLine.
  destruct (trim raw) as [|c line]; [exact Hfs|].
  destruct (c =? 35)%N; [exact Hfs|].
  case_bool_decide.
  - repeat case_match; exact Hfs.
  - case_bool_decide; [|exact Hfs].
    simpl. apply Forall_app. split; [exact Hfs|apply triangulate_triangles].
Qed.

Lemma parseLines_triangles (lines : list jsstring)
    (acc : list (Vertex number) * list (list Z)) :
  Forall (fun f => length f = 3%nat) (snd acc) ->
  Forall (fun f => length f = 3%nat)
    (snd (foldl (parseLine number parseFloat) acc lines)).
Proof.
  revert acc. induction lines as [|raw lines IH]; intros acc Hacc; simpl;
    [exact Hacc|].
  apply IH, parseLine_triangles, Hacc.
Qed.

Lemma remapLoop_spec (vertices : list (Vertex number)) (usedIndices : list Z)
    (newIdx : nat) (oldToNew : gmap Z nat)
    (cleanVerts : list (option (Vertex number))) :
  let r := remapLoop number vertices usedIndices newIdx (oldToNew, cleanVerts) in
  length (snd r) = (length cleanVerts + length usedIndices)%nat
  /\ ((forall i n, oldToNew !! i = Some n -> (n < newIdx)%nat) ->
      forall i n, fst r !! i = Some n -> (n < newIdx + length usedIndices)%nat)
  /\ (forall i, i ∈ usedIndices \/ is_Some (oldToNew !! i) -> is_Some (fst r !! i)).
Proof.
  revert newIdx oldToNew cleanVerts.
  induction usedIndices as [|oldIdx rest IH]; intros newIdx oldToNew cleanVerts;
    simpl.
  - split; [lia|]. split.
    + intros Hb i n Hi. specialize (Hb i n Hi). lia.
    + intros i [Hi|Hi]; [now apply elem_of_nil in Hi|exact Hi].
  - specialize (IH (S newIdx) (<[oldIdx:=newIdx]> oldToNew)
                  (cleanVerts ++ [arrayGet vertices oldIdx])).
    simpl in IH. destruct IH as (Hlen & Hbound & Hdom).
    split; [rewrite Hlen, length_app; simpl; lia|]. split.
    + intros Hb i n Hi.
      assert (n < S newIdx + length rest)%nat; [|lia].
      apply (Hbound) with (i := i); [|exact Hi].
      intros j k Hj. destruct (decide (oldIdx = j)) as [->|Hne].
      * rewrite lookup_insert_eq in Hj. injection Hj as <-. lia.
      * rewrite lookup_insert_ne in Hj by exact Hne.
        specialize (Hb j k Hj). lia.
    + intros i Hi. apply Hdom.
      destruct (decide (oldIdx = i)) as [->|Hne].
      * right. rewrite lookup_insert_eq. eauto.
      * rewrite lookup_insert_ne by exact Hne.
        destruct Hi as [Hi|Hi]; [|auto].
        apply elem_of_cons in Hi. destruct Hi as [->|Hi]; [congruence|auto].
Qed.

(** C10. For every input, every face of the mesh [parseOBJ] returns has
    exactly 3 indices, and each of them is a natural number below the
    length of the returned vertex array. *)
Theorem parseOBJ_triangles_in_range (text : jsstring) :
  let mesh := parseOBJ parseFloat text in
  Forall (fun f =>
            length f = 3%nat
            /\ Forall (fun i => exists n : nat,
                         i = Some n /\ (n < length (meshVertices mesh))%nat) f)
    (meshFaces mesh).
Proof.
  unfold parseOBJ.
  pose proof (parseLines_triangles (splitLines [] text) ([], [])
                (List.Forall_nil _)) as Htri.
  destruct (foldl (parseLine number parseFloat) ([], []) (splitLines [] text))
    as [vertices faces]. simpl in Htri.
  set (usedIndices := Array_sort (fun a b => (0 <? a - b)%Z) (usedSetOf faces)).
  pose proof (remapLoop_spec vertices usedIndices 0 ∅ []) as Hloop.
  destruct (remapLoop number vertices usedIndices 0 (∅, []))
    as [oldToNew cleanVerts].
  simpl in Hloop. destruct Hloop as (Hlen & Hbound & Hdom).
  simpl. apply Forall_forall. intros cf Hcf.
  apply list_elem_of_In, List.in_map_iff in Hcf.
  destruct Hcf as (f & <- & Hf). apply list_elem_of_In in Hf.
  split.
  - rewrite length_map. exact (proj1 (Forall_forall _ _) Htri f Hf).
  - apply Forall_forall. intros i Hi.
    apply list_elem_of_In, List.in_map_iff in Hi.
    destruct Hi as (oldIdx & <- & Hold). apply list_elem_of_In in Hold.
    assert (Hused : oldIdx ∈ usedIndices).
    { unfold usedIndices. rewrite Array_sort_perm.
      apply usedSet_elem. right. exists f. auto. }
    destruct (Hdom oldIdx (or_introl Hused)) as [n Hn].
    exists n. split; [exact Hn|]. rewrite Hlen.
    apply (Hbound) with (i := oldIdx); [|exact Hn].
    intros j k Hj. now rewrite lookup_empty in Hj.
Qed.

End parseOBJ_spec.

Example parseOBJ_sampleOBJ :
  parseOBJ parseFloatInteger sampleOBJ
  = mkMesh
      [Some (mkVertex 0 0 0); Some (mkVertex 1 0 0); Some (mkVertex 1 1 0);
       Some (mkVertex 0 1 0); None]%Z
      [[Some 0; Some 1; Some 2]; [Some 0; Some 2; Some 3];
       [Some 0; Some 1; Some 4]]%nat.
Proof. vm_compute. reflexivity. Qed.

(** * Further properties *)

(** ** Vector3D *)

Lemma dot_self_sumsq (v : Vector3D) : dot v v = x v ^ 2 + y v ^ 2 + z v ^ 2.
Proof. unfold dot; ring. Qed.

Lemma magnitude_sq_dot (v : Vector3D) : magnitude v * magnitude v = dot v v.
Proof. rewrite magnitude_sq, dot_self_sumsq; reflexivity. Qed.

Lemma magnitude_nonneg (v : Vector3D) : 0 <= magnitude v.
Proof. apply sqrt_pos. Qed.

Lemma lagrange_identity (a b : Vector3D) :
  dot (cross a b) (cross a b) + dot a b * dot a b = dot a a * dot b b.
Proof. unfold dot, cross; simpl; ring. Qed.

(** X1. The cross product is perpendicular to both of its arguments and
    changes sign when they are swapped; the dot product is symmetric. *)
Theorem cross_perpendicular_antisymmetric (a b : Vector3D) :
  dot (cross a b) a = 0
  /\ dot (cross a b) b = 0
  /\ cross b a = scale (-1) (cross a b)
  /\ cross a a = new_Vector3D 0 0 0
  /\ dot a b = dot b a.
Proof.
  unfold dot, cross, scale; simpl.
  repeat split; try ring; f_equal; ring.
Qed.

Lemma magnitude_cross_dot_sq (a b : Vector3D) :
  magnitude (cross a b) ^ 2 + dot a b ^ 2 = magnitude a ^ 2 * magnitude b ^ 2.
Proof.
  simpl. rewrite !Rmult_1_r.
  rewrite (magnitude_sq_dot (cross a b)), (magnitude_sq_dot a), (magnitude_sq_dot b).
  apply lagrange_identity.
Qed.

Lemma cauchy_schwarz (a b : Vector3D) :
  Rabs (dot a b) <= magnitude a * magnitude b.
Proof.
  pose proof (magnitude_cross_dot_sq a b) as Hsq.
  pose proof (magnitude_nonneg a) as Hna.
  pose proof (magnitude_nonneg b) as Hnb.
  apply Rsqr_incr_0_var; [|nra].
  rewrite <- Rsqr_abs. unfold Rsqr. nra.
Qed.

(** X2. Lagrange's identity: the squared magnitude of the cross product plus
    the squared dot product is the product of the squared magnitudes; hence
    the dot product and the magnitude of the cross product are bounded by the
    product of the magnitudes. *)
Theorem cross_dot_magnitude (a b : Vector3D) :
  magnitude (cross a b) ^ 2 + dot a b ^ 2 = magnitude a ^ 2 * magnitude b ^ 2
  /\ Rabs (dot a b) <= magnitude a * magnitude b
  /\ magnitude (cross a b) <= magnitude a * magnitude b.
Proof.
  pose proof (magnitude_cross_dot_sq a b) as Hsq.
  pose proof (magnitude_nonneg a) as Hna.
  pose proof (magnitude_nonneg b) as Hnb.
  split; [exact Hsq|]. split; [apply cauchy_schwarz|].
  apply Rsqr_incr_0_var; [|nra]. unfold Rsqr. nra.
Qed.

Lemma magnitude_zero_iff (v : Vector3D) :
  magnitude v = 0 <-> v = new_Vector3D 0 0 0.
Proof.
  split.
  - intros Hm. destruct (Req_dec (x v) 0) as [Hx|Hx];
      [destruct (Req_dec (y v) 0) as [Hy|Hy];
       [destruct (Req_dec (z v) 0) as [Hz|Hz]|]|];
      [now apply Vector3D_eq|exfalso..];
      pose proof (magnitude_sq v) as Hsq; rewrite Hm in Hsq; nra.
  - intros ->. unfold magnitude. cbn [x y z].
    replace (0 ^ 2 + 0 ^ 2 + 0 ^ 2) with 0 by ring. apply sqrt_0.
Qed.

Lemma magnitude_scale (k : R) (v : Vector3D) :
  magnitude (scale k v) = Rabs k * magnitude v.
Proof.
  unfold magnitude, scale. cbn [x y z].
  replace ((k * x v) ^ 2 + (k * y v) ^ 2 + (k * z v) ^ 2)
    with (k ^ 2 * (x v ^ 2 + y v ^ 2 + z v ^ 2)) by ring.
  rewrite sqrt_mult; [|nra|nra].
  f_equal. replace (k ^ 2) with (Rsqr k) by (unfold Rsqr; ring).
  apply sqrt_Rsqr_abs.
Qed.

Lemma normalize_scale (v : Vector3D) :
  normalize v = scale (/ magnitude v) v.
Proof. unfold normalize, scale; simpl; f_equal; unfold Rdiv; ring. Qed.

Lemma magnitude_normalize (v : Vector3D) :
  v <> new_Vector3D 0 0 0 -> magnitude (normalize v) = 1.
Proof.
  intros Hv. pose proof (magnitude_pos v Hv) as Hm.
  rewrite normalize_scale, magnitude_scale.
  rewrite Rabs_pos_eq; [field; lra|].
  left. now apply Rinv_0_lt_compat.
Qed.

(** X3. For a vector that is not zero, [normalize] returns the vector of
    magnitude 1 in the same direction: scaling it back by the magnitude gives
    the vector again, normalizing twice changes nothing, and a positive
    multiple of the vector normalizes to the same result. *)
Theorem normalize_unit_direction (v : Vector3D) (k : R)
    (Hv : v <> new_Vector3D 0 0 0) (Hk : 0 < k) :
  magnitude (normalize v) = 1
  /\ scale (magnitude v) (normalize v) = v
  /\ normalize (normalize v) = normalize v
  /\ normalize (scale k v) = normalize v.
Proof.
  pose proof (magnitude_pos v Hv) as Hm.
  pose proof (magnitude_normalize v Hv) as Hu.
  split; [exact Hu|]. split; [|split].
  - unfold scale, normalize; simpl. apply Vector3D_eq; simpl; field; lra.
  - rewrite (normalize_scale (normalize v)), Hu.
    unfold scale. apply Vector3D_eq; simpl; field; lra.
  - unfold normalize at 1. rewrite magnitude_scale, Rabs_pos_eq by lra.
    unfold normalize, scale; simpl. apply Vector3D_eq; simpl; field; lra.
Qed.

Lemma normalize_unit_direction_witness :
  magnitude (normalize (new_Vector3D 0.5 0.5 (-0.5))) = 1
  /\ normalize (scale 2 (new_Vector3D 0.5 0.5 (-0.5)))
     = normalize (new_Vector3D 0.5 0.5 (-0.5)).
Proof.
  assert (Hv : new_Vector3D 0.5 0.5 (-0.5) <> new_Vector3D 0 0 0).
  { intros H. apply (f_equal x) in H. simpl in H. lra. }
  destruct (normalize_unit_direction (new_Vector3D 0.5 0.5 (-0.5)) 2 Hv ltac:(lra))
    as (Hu & _ & _ & Hs).
  split; assumption.
Defined.

(** ** Transformation *)

Lemma rotateXZ_add (v : Vector3D) (a b : R) :
  rotateXZ (rotateXZ v a) b = rotateXZ v (a + b).
Proof.
  unfold rotateXZ; simpl. rewrite cos_plus, sin_plus.
  apply Vector3D_eq; simpl; ring.
Qed.

Lemma rotateXZ_2PI (v : Vector3D) (a : R) :
  rotateXZ v (a + 2 * PI) = rotateXZ v a.
Proof.
  unfold rotateXZ; simpl. rewrite cos_plus, sin_plus, cos_2PI, sin_2PI.
  apply Vector3D_eq; simpl; ring.
Qed.

(** X4. Rotations add up: rotating by [a] and then by [b] is rotating by
    [a + b], in either order, and a full turn changes nothing. *)
Theorem rotateXZ_compose (v : Vector3D) (a b : R) :
  rotateXZ (rotateXZ v a) b = rotateXZ v (a + b)
  /\ rotateXZ (rotateXZ v a) b = rotateXZ (rotateXZ v b) a
  /\ rotateXZ v (a + 2 * PI) = rotateXZ v a.
Proof.
  split; [apply rotateXZ_add|].
  split; [|apply rotateXZ_2PI].
  rewrite !rotateXZ_add. f_equal. ring.
Qed.

Lemma rotateXZ_subtract (a b : Vector3D) (t : R) :
  subtract (rotateXZ a t) (rotateXZ b t) = rotateXZ (subtract a b) t.
Proof. apply Vector3D_eq; simpl; ring. Qed.

Lemma rotateXZ_cross (a b : Vector3D) (t : R) :
  cross (rotateXZ a t) (rotateXZ b t) = rotateXZ (cross a b) t.
Proof.
  pose proof (sin_cos_sq t) as Ht.
  apply Vector3D_eq; simpl.
  - ring.
  - transitivity ((z a * x b - x a * z b) * (sin t * sin t + cos t * cos t));
      [ring | rewrite Ht; ring].
  - ring.
Qed.

Lemma rotateXZ_dot (a b : Vector3D) (t : R) :
  dot (rotateXZ a t) (rotateXZ b t) = dot a b.
Proof.
  pose proof (sin_cos_sq t) as Ht. unfold dot; simpl.
  transitivity ((x a * x b + z a * z b) * (sin t * sin t + cos t * cos t)
                + y a * y b); [ring | rewrite Ht; ring].
Qed.

(** X5. [rotateXZ] is a linear isometry of space that keeps orientation: it
    commutes with [subtract] and with [cross] and keeps every dot product. *)
Theorem rotateXZ_isometry (a b : Vector3D) (theta : R) :
  subtract (rotateXZ a theta) (rotateXZ b theta) = rotateXZ (subtract a b) theta
  /\ dot (rotateXZ a theta) (rotateXZ b theta) = dot a b
  /\ cross (rotateXZ a theta) (rotateXZ b theta) = rotateXZ (cross a b) theta.
Proof.
  split; [apply rotateXZ_subtract|].
  split; [apply rotateXZ_dot | apply rotateXZ_cross].
Qed.

Lemma transformVertex_subtract (this : Model3D) (a b : Vector3D) :
  subtract (transformVertex this a) (transformVertex this b)
  = rotateXZ (subtract a b) (rotation this).
Proof. apply Vector3D_eq; simpl; ring. Qed.

(** X6. [transformVertex] is a rigid motion that can be undone: translating
    back by [- position.z] and rotating by [- rotation] returns the vertex, so
    two different vertices are never transformed to the same point, and the
    distance between two transformed vertices is the distance between the
    vertices. *)
Theorem transformVertex_rigid_motion (this : Model3D) (v w : Vector3D) :
  rotateXZ (translateZ (transformVertex this v) (- z (position this)))
    (- rotation this) = v
  /\ (transformVertex this v = transformVertex this w <-> v = w)
  /\ magnitude (subtract (transformVertex this v) (transformVertex this w))
     = magnitude (subtract v w).
Proof.
  assert (Hinv : forall u,
    rotateXZ (translateZ (transformVertex this u) (- z (position this)))
      (- rotation this) = u).
  { intros u. pose proof (sin_cos_sq (rotation this)) as Ht.
    apply Vector3D_eq; simpl; rewrite ?cos_neg, ?sin_neg.
    - transitivity (x u * (sin (rotation this) * sin (rotation this)
                           + cos (rotation this) * cos (rotation this)));
        [ring | rewrite Ht; ring].
    - reflexivity.
    - transitivity (z u * (sin (rotation this) * sin (rotation this)
                           + cos (rotation this) * cos (rotation this)));
        [ring | rewrite Ht; ring]. }
  split; [apply Hinv|]. split.
  - split; [|now intros ->].
    intros Heq. rewrite <- (Hinv v), <- (Hinv w), Heq. reflexivity.
  - rewrite transformVertex_subtract. unfold magnitude. now rewrite rotateXZ_sq.
Qed.

(** X7. The order of the two steps matters: translating first and rotating
    after gives the result of [transformVertex]'s order only when the
    translation is 0 or the rotation is a whole number of turns. *)
Theorem rotate_translate_order (v : Vector3D) (theta dz : R) :
  rotateXZ (translateZ v dz) theta = translateZ (rotateXZ v theta) dz
  <-> dz = 0 \/ cos theta = 1.
Proof.
  pose proof (sin_cos_sq theta) as Ht.
  split.
  - intros Heq.
    pose proof (f_equal x Heq) as Hx. pose proof (f_equal z Heq) as Hz.
    simpl in Hx, Hz.
    destruct (Req_dec dz 0) as [Hd|Hd]; [now left|right].
    assert (Hc : dz * cos theta = dz) by lra.
    apply (Rmult_eq_reg_l dz); [lra|exact Hd].
  - intros [-> | Hc].
    + apply Vector3D_eq; simpl; ring.
    + assert (Hs : sin theta = 0) by nra.
      apply Vector3D_eq; simpl; rewrite ?Hc, ?Hs; ring.
Qed.

(** ** Camera *)

(** X8. [project] sends the points of a line through the camera to one
    point: a multiple of [v] projects to the x and y of [v], and two points
    with the same projected x and y are multiples of each other. *)
Theorem project_ray (this : Camera) (v w : Vector3D) (k : R)
    (Hk : k <> 0) (Hv : z v <> 0) (Hw : z w <> 0) :
  x (project this (scale k v)) = x (project this v)
  /\ y (project this (scale k v)) = y (project this v)
  /\ z (project this (scale k v)) = k * z v
  /\ (x (project this v) = x (project this w) ->
      y (project this v) = y (project this w) ->
      v = scale (z v / z w) w).
Proof.
  simpl. repeat split; try (field; auto).
  intros Hx Hy. apply Vector3D_eq; simpl.
  - transitivity (x v / z v * z v); [field; auto|]. rewrite Hx. field; auto.
  - transitivity (y v / z v * z v); [field; auto|]. rewrite Hy. field; auto.
  - field; auto.
Qed.

Lemma project_ray_witness :
  x (project (new_Camera 800 800) (scale 2 (new_Vector3D 3 4 2)))
  = x (project (new_Camera 800 800) (new_Vector3D 3 4 2)).
Proof.
  refine (proj1 (project_ray (new_Camera 800 800) (new_Vector3D 3 4 2)
                   (new_Vector3D 3 4 2) 2 _ _ _)); simpl; lra.
Defined.

(** X9. In front of the camera, moving a point away along the view axis
    never enlarges its projection, and shrinks it when the point is off the
    axis. *)
Theorem project_farther_smaller (this : Camera) (v : Vector3D) (dz : R)
    (Hz : 0 < z v) (Hdz : 0 < dz) :
  Rabs (x (project this (translateZ v dz))) <= Rabs (x (project this v))
  /\ Rabs (y (project this (translateZ v dz))) <= Rabs (y (project this v))
  /\ (x v <> 0 ->
      Rabs (x (project this (translateZ v dz))) < Rabs (x (project this v)))
  /\ (y v <> 0 ->
      Rabs (y (project this (translateZ v dz))) < Rabs (y (project this v))).
Proof.
  simpl.
  assert (Hshrink : forall c, Rabs (c / (z v + dz)) <= Rabs (c / z v)
                              /\ (c <> 0 -> Rabs (c / (z v + dz)) < Rabs (c / z v))).
  { intros c. unfold Rdiv. rewrite !Rabs_mult.
    rewrite (Rabs_pos_eq (/ (z v + dz))), (Rabs_pos_eq (/ z v));
      try (left; apply Rinv_0_lt_compat; lra).
    assert (Hinv : / (z v + dz) < / z v) by (apply Rinv_lt_contravar; nra).
    pose proof (Rabs_pos c) as Hc. split; [nra|].
    intros Hne. pose proof (Rabs_pos_lt c Hne). nra. }
  destruct (Hshrink (x v)) as [Hx Hx'], (Hshrink (y v)) as [Hy Hy'].
  repeat split; assumption.
Qed.

Lemma project_farther_smaller_witness :
  Rabs (x (project (new_Camera 800 800) (translateZ (new_Vector3D 3 4 2) 1)))
  < Rabs (x (project (new_Camera 800 800) (new_Vector3D 3 4 2))).
Proof.
  refine (proj1 (proj2 (proj2 (project_farther_smaller (new_Camera 800 800)
            (new_Vector3D 3 4 2) 1 _ _))) _); simpl; lra.
Defined.

(** X10. On a canvas of positive width and height, [toScreenCoords] puts a
    point inside the canvas exactly when its x and y are between -1 and 1; it
    can be undone, grows to the right with x and grows downwards as y
    grows upwards. *)
Theorem toScreenCoords_viewport (this : Camera) (p q : Vector3D)
    (Hw : 0 < canvasWidth this) (Hh : 0 < canvasHeight this) :
  ((0 <= screenX (toScreenCoords this p) <= canvasWidth this
    /\ 0 <= screenY (toScreenCoords this p) <= canvasHeight this)
   <-> (-1 <= x p <= 1 /\ -1 <= y p <= 1))
  /\ x p = 2 * screenX (toScreenCoords this p) / canvasWidth this - 1
  /\ y p = 1 - 2 * screenY (toScreenCoords this p) / canvasHeight this
  /\ (x p < x q <->
      screenX (toScreenCoords this p) < screenX (toScreenCoords this q))
  /\ (y p < y q <->
      screenY (toScreenCoords this q) < screenY (toScreenCoords this p)).
Proof.
  simpl. revert Hw Hh.
  generalize (canvasWidth this) as w, (canvasHeight this) as h. intros w h Hw Hh.
  split; [|split; [|split; [|split]]].
  - split.
    + intros [[Hx0 Hx1] [Hy0 Hy1]].
      assert (Hunit : forall a c, 0 < c -> 0 <= a * c <= c -> 0 <= a <= 1).
      { intros a c Hc [H0 H1]. split; apply (Rmult_le_reg_r c); lra. }
      pose proof (Hunit _ w Hw (conj Hx0 Hx1)).
      pose proof (Hunit _ h Hh (conj Hy0 Hy1)).
      lra.
    + intros [[Hx0 Hx1] [Hy0 Hy1]]. repeat split; nra.
  - field. lra.
  - field. lra.
  - split; intros; nra.
  - split; intros; nra.
Qed.

Lemma toScreenCoords_viewport_witness :
  x (new_Vector3D 0.5 0.5 2)
  = 2 * screenX (toScreenCoords (new_Camera 800 800) (new_Vector3D 0.5 0.5 2))
    / canvasWidth (new_Camera 800 800) - 1.
Proof.
  refine (proj1 (proj2 (toScreenCoords_viewport (new_Camera 800 800)
            (new_Vector3D 0.5 0.5 2) (new_Vector3D 0.5 0.5 2) _ _))); simpl; lra.
Defined.

(** ** Model3D: the face normal and visibility *)

Lemma faceVertex_take (this : Model3D) (f : list nat) (k : nat) :
  (k < 3)%nat -> faceVertex this (take 3 f) k = faceVertex this f k.
Proof. intros Hk. unfold faceVertex. now rewrite lookup_take_lt. Qed.

(** X11. [getFaceNormal] reads the first three indices only.  It returns
    null exactly for a face of fewer than 3 indices, throws exactly when one of
    the first three indices of a longer face names no vertex, and is not
    affected by the indices after the third. *)
Theorem getFaceNormal_outcome (this : Model3D) (faceIndices : list nat) :
  (getFaceNormal this faceIndices = Ok None <-> (length faceIndices < 3)%nat)
  /\ (getFaceNormal this faceIndices = TypeError
      <-> (3 <= length faceIndices)%nat
          /\ exists k, (k < 3)%nat /\ faceVertex this faceIndices k = None)
  /\ getFaceNormal this faceIndices = getFaceNormal this (take 3 faceIndices).
Proof.
  split; [|split].
  - unfold getFaceNormal.
    destruct (Nat.ltb_spec (length faceIndices) 3) as [Hlt|Hge].
    + split; auto.
    + split; [|lia].
      destruct (faceVertex this faceIndices 0), (faceVertex this faceIndices 1),
        (faceVertex this faceIndices 2); discriminate.
  - unfold getFaceNormal.
    destruct (Nat.ltb_spec (length faceIndices) 3) as [Hlt|Hge].
    + split; [discriminate|]. intros [Hge _]. lia.
    + destruct (faceVertex this faceIndices 0) as [v0|] eqn:H0,
        (faceVertex this faceIndices 1) as [v1|] eqn:H1,
        (faceVertex this faceIndices 2) as [v2|] eqn:H2; simpl;
        (split; [first [discriminate | intros _; split; [exact Hge|]] | try reflexivity]).
      all: try (exists 0%nat; split; [lia|assumption]).
      all: try (exists 1%nat; split; [lia|assumption]).
      all: try (exists 2%nat; split; [lia|assumption]).
      intros [_ (k & Hk & Hnone)].
      destruct k as [|[|[|k]]]; [congruence..|lia].
  - unfold getFaceNormal. rewrite length_take.
    rewrite !faceVertex_take by lia.
    destruct (Nat.ltb_spec (length faceIndices) 3) as [Hlt|Hge];
      destruct (Nat.ltb_spec (3 `min` length faceIndices) 3); try lia; reflexivity.
Qed.

Lemma isFaceVisible_cross (this : Model3D) (faceIndices : list nat)
    (v0 v1 v2 : Vector3D) :
  faceVertex this faceIndices 0 = Some v0 ->
  faceVertex this faceIndices 1 = Some v1 ->
  faceVertex this faceIndices 2 = Some v2 ->
  isFaceVisible this faceIndices
  = Ok (Rltb (z (rotateXZ (cross (subtract v1 v0) (subtract v2 v0))
                   (rotation this))) 0).
Proof.
  intros H0 H1 H2. unfold isFaceVisible.
  now rewrite (getFaceNormal_cross this faceIndices v0 v1 v2 H0 H1 H2).
Qed.

(** X12. The test of [isFaceVisible] on the rotated normal is the test on
    the face as it is drawn: the rotated normal is the cross product of the
    edges between the transformed vertices, whatever the position. *)
Theorem isFaceVisible_transformed (this : Model3D) (faceIndices : list nat)
    (v0 v1 v2 : Vector3D)
    (H0 : faceVertex this faceIndices 0 = Some v0)
    (H1 : faceVertex this faceIndices 1 = Some v1)
    (H2 : faceVertex this faceIndices 2 = Some v2) :
  let t0 := transformVertex this v0 in
  let t1 := transformVertex this v1 in
  let t2 := transformVertex this v2 in
  isFaceVisible this faceIndices
  = Ok (Rltb (z (cross (subtract t1 t0) (subtract t2 t0))) 0).
Proof.
  intros t0 t1 t2. unfold t0, t1, t2.
  rewrite !transformVertex_subtract, rotateXZ_cross.
  apply isFaceVisible_cross; assumption.
Qed.

Lemma isFaceVisible_transformed_witness :
  isFaceVisible quadModel [0; 1; 2; 3]%nat
  = Ok (Rltb (z (cross
                   (subtract (transformVertex quadModel (new_Vector3D (-1) 1 0))
                      (transformVertex quadModel (new_Vector3D (-1) (-1) 0)))
                   (subtract (transformVertex quadModel (new_Vector3D 1 1 0))
                      (transformVertex quadModel (new_Vector3D (-1) (-1) 0))))) 0).
Proof.
  exact (isFaceVisible_transformed quadModel [0; 1; 2; 3]%nat
           (new_Vector3D (-1) (-1) 0) (new_Vector3D (-1) 1 0) (new_Vector3D 1 1 0)
           eq_refl eq_refl eq_refl).
Defined.

Lemma Rltb_opp (a : R) : a <> 0 -> Rltb (- a) 0 = negb (Rltb a 0).
Proof.
  intros Ha. unfold Rltb.
  destruct (Rlt_dec (- a) 0), (Rlt_dec a 0); simpl; try reflexivity; lra.
Qed.

Lemma rotateXZ_scale (k : R) (v : Vector3D) (t : R) :
  rotateXZ (scale k v) t = scale k (rotateXZ v t).
Proof. apply Vector3D_eq; simpl; ring. Qed.

(** X13. The winding decides the side: swapping the second and third index
    of a face negates its normal, moving the first index of a triangle to the
    end keeps it; unless the face is seen edge-on, exactly one of the two
    windings is visible. *)
Theorem getFaceNormal_winding (this : Model3D) (i j k : nat) (rest : list nat)
    (a b c : Vector3D)
    (Ha : vertices this !! i = Some a)
    (Hb : vertices this !! j = Some b)
    (Hc : vertices this !! k = Some c) :
  let normal := cross (subtract b a) (subtract c a) in
  getFaceNormal this (i :: j :: k :: rest) = Ok (Some normal)
  /\ getFaceNormal this (i :: k :: j :: rest) = Ok (Some (scale (-1) normal))
  /\ getFaceNormal this [j; k; i] = Ok (Some normal)
  /\ (z (rotateXZ normal (rotation this)) <> 0 ->
      isFaceVisible this (i :: k :: j :: rest)
      = negb <$> isFaceVisible this (i :: j :: k :: rest)).
Proof.
  intros normal.
  assert (H1 : getFaceNormal this (i :: j :: k :: rest) = Ok (Some normal)).
  { apply getFaceNormal_cross; assumption. }
  assert (H2 : getFaceNormal this (i :: k :: j :: rest)
               = Ok (Some (scale (-1) normal))).
  { rewrite (getFaceNormal_cross this _ a c b) by assumption.
    do 2 f_equal. apply Vector3D_eq; simpl; ring. }
  split; [exact H1|]. split; [exact H2|]. split.
  - rewrite (getFaceNormal_cross this _ b c a) by assumption.
    do 2 f_equal. apply Vector3D_eq; simpl; ring.
  - intros Hz. unfold isFaceVisible. rewrite H1, H2.
    change (Ok (Rltb (z (rotateXZ (scale (-1) normal) (rotation this))) 0)
            = Ok (negb (Rltb (z (rotateXZ normal (rotation this))) 0))).
    f_equal. rewrite rotateXZ_scale, <- (Rltb_opp _ Hz).
    f_equal. simpl. ring.
Qed.

Lemma getFaceNormal_winding_witness :
  getFaceNormal quadModel [0; 2; 1; 3]%nat
  = Ok (Some (scale (-1)
                (cross (subtract (new_Vector3D (-1) 1 0) (new_Vector3D (-1) (-1) 0))
                   (subtract (new_Vector3D 1 1 0) (new_Vector3D (-1) (-1) 0))))).
Proof.
  exact (proj1 (proj2 (getFaceNormal_winding quadModel 0 1 2 [3]%nat
           (new_Vector3D (-1) (-1) 0) (new_Vector3D (-1) 1 0) (new_Vector3D 1 1 0)
           eq_refl eq_refl eq_refl))).
Defined.

(** X14. A face that repeats a vertex among its first three has the zero
    vector as its normal and is not visible at any rotation: with culling on
    it is never drawn. *)
Theorem repeated_vertex_face_hidden (this : Model3D) (faceIndices : list nat)
    (v0 v1 v2 : Vector3D)
    (H0 : faceVertex this faceIndices 0 = Some v0)
    (H1 : faceVertex this faceIndices 1 = Some v1)
    (H2 : faceVertex this faceIndices 2 = Some v2)
    (Hrepeat : v1 = v0 \/ v2 = v0 \/ v2 = v1) :
  getFaceNormal this faceIndices = Ok (Some (new_Vector3D 0 0 0))
  /\ isFaceVisible this faceIndices = Ok false.
Proof.
  assert (Hn : cross (subtract v1 v0) (subtract v2 v0) = new_Vector3D 0 0 0).
  { destruct Hrepeat as [-> | [-> | ->]]; apply Vector3D_eq; simpl; ring. }
  split.
  - rewrite (getFaceNormal_cross this _ v0 v1 v2) by assumption. now rewrite Hn.
  - rewrite (isFaceVisible_cross this _ v0 v1 v2) by assumption. rewrite Hn.
    f_equal. apply Rltb_false. simpl. lra.
Qed.

Lemma repeated_vertex_face_hidden_witness :
  isFaceVisible quadModel [0; 1; 1]%nat = Ok false.
Proof.
  refine (proj2 (repeated_vertex_face_hidden quadModel [0; 1; 1]%nat
            (new_Vector3D (-1) (-1) 0) (new_Vector3D (-1) 1 0)
            (new_Vector3D (-1) 1 0) eq_refl eq_refl eq_refl _)).
  right. right. reflexivity.
Defined.



(** ** Model3D: the depth key *)

Lemma getAverageDepth_loop_error (this : Model3D) (f : list nat) (sumZ : R) :
  getAverageDepth_loop this f sumZ = TypeError
  <-> Exists (fun idx => (length (vertices this) <= idx)%nat) f.
Proof.
  revert sumZ. induction f as [|idx f IH]; intros sumZ; simpl.
  - split; [discriminate|]. intros H. inversion H.
  - destruct (vertices this !! idx) as [v|] eqn:Hv; simpl.
    + rewrite IH. apply lookup_lt_Some in Hv. split.
      * intros H. now right.
      * intros H. inversion H; subst; [lia|assumption].
    + apply lookup_ge_None in Hv. split; [intros _; now left | reflexivity].
Qed.

(** X16. [getAverageDepth] reads every index of the face: it throws exactly
    when one of them, at any position, names no vertex, and returns a depth
    otherwise, also for the empty face. *)
Theorem getAverageDepth_outcome (this : Model3D) (faceIndices : list nat) :
  (getAverageDepth this faceIndices = TypeError
   <-> exists idx, idx ∈ faceIndices /\ (length (vertices this) <= idx)%nat)
  /\ ((forall idx, idx ∈ faceIndices -> (idx < length (vertices this))%nat)
      <-> exists d, getAverageDepth this faceIndices = Ok d).
Proof.
  unfold getAverageDepth.
  pose proof (getAverageDepth_loop_error this faceIndices 0) as Herr.
  rewrite Exists_exists in Herr.
  destruct (getAverageDepth_loop this faceIndices 0) as [s|]; simpl.
  - split.
    + split; [discriminate|]. intros H. apply Herr in H. discriminate.
    + split; [eauto|]. intros _ idx Hidx.
      destruct (Nat.lt_ge_cases idx (length (vertices this))) as [Hlt|Hge];
        [exact Hlt|].
      assert (@TypeError R = Ok s) by (symmetry; apply Herr; eauto). discriminate.
  - split.
    + split; [intros _; now apply Herr | reflexivity].
    + split; [|intros [d Hd]; discriminate].
      intros Hall. destruct (proj1 Herr eq_refl) as (idx & Hin & Hge).
      specialize (Hall idx Hin). lia.
Qed.

Lemma getAverageDepth_loop_perm (this : Model3D) (f g : list nat) :
  Permutation f g ->
  forall sumZ, getAverageDepth_loop this f sumZ = getAverageDepth_loop this g sumZ.
Proof.
  induction 1 as [|i f g _ IH|i j f|f g h _ IH1 _ IH2]; intros sumZ; simpl.
  - reflexivity.
  - destruct (vertices this !! i); simpl; [apply IH|reflexivity].
  - destruct (vertices this !! i), (vertices this !! j); simpl; try reflexivity.
    f_equal. ring.
  - now rewrite IH1.
Qed.

(** X17. The depth key does not depend on the order of the indices of the
    face: two faces with the same indices in any order get the same result. *)
Theorem getAverageDepth_permutation (this : Model3D) (f g : list nat)
    (Hperm : Permutation f g) :
  getAverageDepth this f = getAverageDepth this g.
Proof.
  unfold getAverageDepth.
  now rewrite (getAverageDepth_loop_perm this f g Hperm), (Permutation_length Hperm).
Qed.

Lemma getAverageDepth_permutation_witness :
  getAverageDepth quadModel [0; 1; 2; 3]%nat
  = getAverageDepth quadModel [3; 2; 1; 0]%nat.
Proof.
  apply getAverageDepth_permutation.
  change [3; 2; 1; 0]%nat with (rev [0; 1; 2; 3]%nat).
  apply Permutation_rev.
Defined.

Lemma sum_bounds (g : Vector3D -> R) (lo hi : R) (vs : list Vector3D) :
  Forall (fun v => lo <= g v <= hi) vs ->
  INR (length vs) * lo <= fold_right Rplus 0 (map g vs) <= INR (length vs) * hi.
Proof.
  induction 1 as [|v vs Hv _ IH].
  - simpl. lra.
  - change (length (v :: vs)) with (S (length vs)). rewrite S_INR. simpl. lra.
Qed.

(** X18. The depth key of a non-empty face lies between the smallest and the
    largest depth of its transformed vertices; a face with every vertex in
    front of the camera has a positive key. *)
Theorem getAverageDepth_between (this : Model3D) (faceIndices : list nat)
    (vs : list Vector3D) (lo hi : R)
    (Hvs : Forall2 (fun idx v => vertices this !! idx = Some v) faceIndices vs)
    (Hne : faceIndices <> [])
    (Hbounds : Forall (fun v => lo <= z (transformVertex this v) <= hi) vs) :
  exists d, getAverageDepth this faceIndices = Ok d /\ lo <= d <= hi.
Proof.
  pose proof (Forall2_length _ _ _ Hvs) as Hlen.
  assert (Hpos : 0 < INR (length vs)).
  { apply lt_0_INR. rewrite <- Hlen. destruct faceIndices; [contradiction|simpl; lia]. }
  pose proof (sum_bounds (fun v => z (transformVertex this v)) lo hi vs Hbounds)
    as [Hlo Hhi].
  unfold getAverageDepth. rewrite (getAverageDepth_loop_sum _ _ vs 0 Hvs).
  set (total := fold_right Rplus 0 (map (fun v => z (transformVertex this v)) vs))
    in *.
  eexists; split; [reflexivity|].
  rewrite Hlen, Rplus_0_l.
  split.
  - apply (Rmult_le_reg_r (INR (length vs))); [exact Hpos|].
    unfold Rdiv. rewrite Rmult_assoc, Rinv_l by lra. lra.
  - apply (Rmult_le_reg_r (INR (length vs))); [exact Hpos|].
    unfold Rdiv. rewrite Rmult_assoc, Rinv_l by lra. lra.
Qed.

Lemma getAverageDepth_between_witness :
  exists d, getAverageDepth twoFaceModel [0; 1; 2]%nat = Ok d /\ 2 <= d <= 2.
Proof.
  apply (getAverageDepth_between twoFaceModel [0; 1; 2]%nat
           [new_Vector3D 0 0 (-0.5); new_Vector3D 0 1 (-0.5);
            new_Vector3D 1 0 (-0.5)]).
  - repeat constructor.
  - discriminate.
  - repeat constructor; simpl; rewrite cos_0, sin_0; lra.
Defined.

(** X19. Half a turn later the depth key of a non-empty face is mirrored at
    the depth of the model's origin: a key [d] becomes [2 position.z - d], so
    the painter's order of the faces is reversed. *)
Theorem getAverageDepth_half_turn (this that : Model3D) (faceIndices : list nat)
    (d : R)
    (Hvertices : vertices that = vertices this)
    (Hposition : position that = position this)
    (Hrotation : rotation that = rotation this + PI)
    (Hne : faceIndices <> [])
    (Hd : getAverageDepth this faceIndices = Ok d) :
  getAverageDepth that faceIndices = Ok (2 * z (position this) - d).
Proof.
  assert (Hall : Forall (fun idx => (idx < length (vertices this))%nat) faceIndices).
  { apply Forall_forall. intros idx Hidx.
    destruct (Nat.lt_ge_cases idx (length (vertices this))) as [Hlt|Hge];
      [exact Hlt|exfalso].
    assert (He : Exists (fun idx => (length (vertices this) <= idx)%nat) faceIndices)
      by (apply Exists_exists; eauto).
    apply (getAverageDepth_loop_error this faceIndices 0) in He.
    unfold getAverageDepth in Hd. rewrite He in Hd. discriminate. }
  assert (Hvs : exists vs, Forall2 (fun idx v => vertices this !! idx = Some v)
                             faceIndices vs).
  { clear Hd Hne. induction Hall as [|idx f Hidx _ [vs IH]]; [exists []; constructor|].
    destruct (lookup_lt_is_Some_2 _ _ Hidx) as [v Hv].
    exists (v :: vs). constructor; assumption. }
  destruct Hvs as [vs Hvs].
  pose proof (Forall2_length _ _ _ Hvs) as Hlen.
  assert (Hpos : INR (length vs) <> 0).
  { apply not_0_INR. rewrite <- Hlen. destruct faceIndices; [contradiction|discriminate]. }
  assert (Hvs' : Forall2 (fun idx v => vertices that !! idx = Some v) faceIndices vs)
    by now rewrite Hvertices.
  assert (Hsum : fold_right Rplus 0 (map (fun v => z (transformVertex that v)) vs)
                 = 2 * z (position this) * INR (length vs)
                   - fold_right Rplus 0
                       (map (fun v => z (transformVertex this v)) vs)).
  { clear Hvs Hvs' Hlen Hpos.
    induction vs as [|v vs IH]; [simpl; ring|].
    change (length (v :: vs)) with (S (length vs)). rewrite S_INR.
    cbn [map fold_right]. rewrite IH.
    unfold transformVertex, translateZ. cbn [z].
    rewrite Hrotation, rotateXZ_PI_z, Hposition. ring. }
  unfold getAverageDepth in *.
  rewrite (getAverageDepth_loop_sum _ _ vs 0 Hvs) in Hd.
  rewrite (getAverageDepth_loop_sum _ _ vs 0 Hvs'), Hsum.
  set (total := fold_right Rplus 0 (map (fun v => z (transformVertex this v)) vs))
    in *.
  change (Ok ((0 + total) / INR (length faceIndices)) = Ok d) in Hd.
  injection Hd as <-.
  change (Ok ((0 + (2 * z (position this) * INR (length vs) - total))
              / INR (length faceIndices))
          = Ok (2 * z (position this) - (0 + total) / INR (length faceIndices))).
  f_equal. rewrite Hlen. field. exact Hpos.
Qed.

Lemma getAverageDepth_half_turn_witness :
  getAverageDepth backFaceModel [0; 1; 2]%nat
  = Ok (2 * z (position twoFaceModel) - 2).
Proof.
  apply (getAverageDepth_half_turn twoFaceModel backFaceModel [0; 1; 2]%nat 2).
  - reflexivity.
  - reflexivity.
  - simpl. ring.
  - discriminate.
  - exact (proj1 twoFaceModel_depths).
Defined.

(** ** Renderer *)

Lemma screenPointsOf_error (this : Renderer) (model : Model3D) (f : list nat) :
  screenPointsOf this model f = TypeError
  <-> Exists (fun idx => (length (vertices model) <= idx)%nat) f.
Proof.
  induction f as [|idx f IH]; simpl.
  - split; [discriminate|]. intros H. inversion H.
  - destruct (vertices model !! idx) as [v|] eqn:Hv; simpl.
    + apply lookup_lt_Some in Hv.
      destruct (screenPointsOf this model f) as [ps|]; simpl.
      * split; [discriminate|]. intros H.
        inversion H as [? ? Hge|? ? Hex]; subst; [lia|].
        apply IH in Hex. discriminate.
      * split; [intros _; right; now apply IH | reflexivity].
    + apply lookup_ge_None in Hv. split; [intros _; now left | reflexivity].
Qed.

Lemma screenPointsOf_points (this : Renderer) (model : Model3D) (f : list nat)
    (ps : list ScreenPoint) :
  screenPointsOf this model f = Ok ps ->
  Forall2 (fun idx p => exists v, vertices model !! idx = Some v
                                  /\ p = screenPointOf this model v) f ps.
Proof.
  revert ps. induction f as [|idx f IH]; intros ps; simpl.
  - intros [= <-]. constructor.
  - destruct (vertices model !! idx) as [v|] eqn:Hv; [|discriminate]. simpl.
    destruct (screenPointsOf this model f) as [ps'|]; [|discriminate]. simpl.
    intros [= <-]. constructor; [eauto|now apply IH].
Qed.

Lemma tracePath_nonempty (ps : list ScreenPoint) :
  ps <> [] -> tracePath ps = Ok ps.
Proof. destruct ps; [contradiction|reflexivity]. Qed.

(** X20. [drawFace] throws exactly when an index of the face names no
    vertex, or the face is empty (wireframe mode) or has fewer than 3 indices
    (shaded mode).  Otherwise it strokes (wireframe) or fills (shaded) the
    path that has one point per index, in order: the vertex transformed,
    projected and mapped to the canvas. *)
Theorem drawFace_outcome (this : Renderer) (model : Model3D)
    (faceIndices : list nat) :
  (drawFace this model faceIndices = TypeError
   <-> (exists idx, idx ∈ faceIndices /\ (length (vertices model) <= idx)%nat)
       \/ (if wireframeMode this then faceIndices = []
           else (length faceIndices < 3)%nat))
  /\ (forall op, drawFace this model faceIndices = Ok op ->
        Forall2 (fun idx p => exists v, vertices model !! idx = Some v
                                        /\ p = screenPointOf this model v)
          faceIndices (opPath op)
        /\ (if wireframeMode this then op = StrokePath 2 (opPath op)
            else exists c, op = FillStrokePath c (IZR c * 0.7) 1 (opPath op))).
Proof.
  unfold drawFace.
  pose proof (screenPointsOf_error this model faceIndices) as Herr.
  rewrite Exists_exists in Herr.
  pose proof (screenPointsOf_points this model faceIndices) as Hpts.
  destruct (screenPointsOf this model faceIndices) as [ps|]; simpl.
  2:{ split; [|discriminate]. split; [intros _; left; now apply Herr|reflexivity]. }
  specialize (Hpts ps eq_refl).
  pose proof (Forall2_length _ _ _ Hpts) as Hlen.
  assert (Hvalid : ~ exists idx, idx ∈ faceIndices
                                /\ (length (vertices model) <= idx)%nat).
  { intros H. apply Herr in H. discriminate. }
  destruct (wireframeMode this).
  - unfold drawWireframe. destruct ps as [|p ps]; simpl.
    + split; [|discriminate].
      split; [intros _; right; now destruct faceIndices | reflexivity].
    + split.
      * split; [discriminate|]. intros [H| ->]; [contradiction|discriminate].
      * intros op [= <-]. simpl. split; [exact Hpts|reflexivity].
  - unfold drawShadedFace, getFaceNormal.
    destruct (Nat.ltb_spec (length faceIndices) 3) as [Hlt|Hge]; simpl.
    + split; [|discriminate]. split; [intros _; now right|reflexivity].
    + destruct (faceVertex model faceIndices 0) as [v0|] eqn:H0,
        (faceVertex model faceIndices 1) as [v1|] eqn:H1,
        (faceVertex model faceIndices 2) as [v2|] eqn:H2; simpl.
      2-8: exfalso; apply Hvalid; unfold faceVertex in *.
      * destruct ps as [|p ps]; [simpl in Hlen; lia|]. simpl. split.
        -- split; [discriminate|]. intros [H|H]; [contradiction|lia].
        -- intros op [= <-]. simpl. split; [exact Hpts|]. eexists; reflexivity.
      * destruct (faceIndices !! 2%nat) as [i|] eqn:Hi;
          [|apply lookup_ge_None in Hi; lia].
        exists i. split; [eapply list_elem_of_lookup_2; eauto|].
        simpl in H2. now apply lookup_ge_None.
      * destruct (faceIndices !! 1%nat) as [i|] eqn:Hi;
          [|apply lookup_ge_None in Hi; lia].
        exists i. split; [eapply list_elem_of_lookup_2; eauto|].
        simpl in H1. now apply lookup_ge_None.
      * destruct (faceIndices !! 1%nat) as [i|] eqn:Hi;
          [|apply lookup_ge_None in Hi; lia].
        exists i. split; [eapply list_elem_of_lookup_2; eauto|].
        simpl in H1. now apply lookup_ge_None.
      * destruct (faceIndices !! 0%nat) as [i|] eqn:Hi;
          [|apply lookup_ge_None in Hi; lia].
        exists i. split; [eapply list_elem_of_lookup_2; eauto|].
        simpl in H0. now apply lookup_ge_None.
      * destruct (faceIndices !! 0%nat) as [i|] eqn:Hi;
          [|apply lookup_ge_None in Hi; lia].
        exists i. split; [eapply list_elem_of_lookup_2; eauto|].
        simpl in H0. now apply lookup_ge_None.
      * destruct (faceIndices !! 0%nat) as [i|] eqn:Hi;
          [|apply lookup_ge_None in Hi; lia].
        exists i. split; [eapply list_elem_of_lookup_2; eauto|].
        simpl in H0. now apply lookup_ge_None.
      * destruct (faceIndices !! 0%nat) as [i|] eqn:Hi;
          [|apply lookup_ge_None in Hi; lia].
        exists i. split; [eapply list_elem_of_lookup_2; eauto|].
        simpl in H0. now apply lookup_ge_None.
Qed.

Lemma brightness_le_1 (l n : Vector3D) :
  magnitude l = 1 -> magnitude n = 1 -> brightness l n <= 1.
Proof.
  intros Hl Hn. unfold brightness.
  pose proof (cauchy_schwarz n l) as Hcs. rewrite Hl, Hn in Hcs.
  pose proof (Rle_abs (dot n l)) as Habs.
  apply Rmax_lub; lra.
Qed.

Lemma lightDirection_unit (width height : R) :
  magnitude (lightDirection (new_Renderer width height)) = 1.
Proof.
  apply magnitude_normalize.
  intros H. apply (f_equal x) in H. simpl in H. lra.
Qed.

(** X21. With a light direction of magnitude 1, which the light of
    [new Renderer] has, a face whose rotated normal is not zero is filled with
    a green value between 76 and 255, so with a valid colour channel, and
    stroked with 0.7 times that value. *)
Theorem drawShadedFace_colour_range (this : Renderer) (model : Model3D)
    (faceIndices : list nat) (screenPoints : list ScreenPoint)
    (normal : Vector3D) (op : CanvasOp)
    (Hlight : magnitude (lightDirection this) = 1)
    (Hnormal : getFaceNormal model faceIndices = Ok (Some normal))
    (Hnonzero : rotateXZ normal (rotation model) <> new_Vector3D 0 0 0)
    (Hop : drawShadedFace this model faceIndices screenPoints = Ok op) :
  (forall width height, magnitude (lightDirection (new_Renderer width height)) = 1)
  /\ exists c : Z,
       op = FillStrokePath c (IZR c * 0.7) 1 screenPoints
       /\ (76 <= c <= 255)%Z.
Proof.
  split; [apply lightDirection_unit|].
  unfold drawShadedFace in Hop. rewrite Hnormal in Hop. simpl in Hop.
  destruct screenPoints as [|p ps]; [discriminate|]. simpl in Hop.
  injection Hop as <-.
  set (b := brightness (lightDirection this)
              (normalize (rotateXZ normal (rotation model)))).
  eexists. split; [reflexivity|].
  pose proof (brightness_nonneg (lightDirection this)
                (normalize (rotateXZ normal (rotation model)))) as Hb0.
  pose proof (brightness_le_1 _ _ Hlight (magnitude_normalize _ Hnonzero)) as Hb1.
  fold b in Hb0, Hb1.
  assert (Hf : 76.5 <= 255 * finalBrightness b <= 255).
  { unfold finalBrightness, minBrightness. split; nra. }
  unfold colorValue. split.
  - apply Zfloor_lub. replace (IZR 76) with 76 by reflexivity. lra.
  - apply le_IZR. pose proof (Zfloor_bound (255 * finalBrightness b)). lra.
Qed.

Lemma drawShadedFace_colour_range_witness :
  exists c : Z,
    drawShadedFace (new_Renderer 800 800) triangleModel [0; 1; 2]%nat
      [mkScreenPoint 0 0]
    = Ok (FillStrokePath c (IZR c * 0.7) 1 [mkScreenPoint 0 0])
    /\ (76 <= c <= 255)%Z.
Proof.
  set (normal := cross (subtract (new_Vector3D 0 1 0) (new_Vector3D 0 0 0))
                   (subtract (new_Vector3D 1 0 0) (new_Vector3D 0 0 0))).
  set (c := colorValue (finalBrightness
              (brightness (lightDirection (new_Renderer 800 800))
                 (normalize (rotateXZ normal (rotation triangleModel)))))).
  assert (Hnonzero : rotateXZ normal (rotation triangleModel) <> new_Vector3D 0 0 0).
  { intros H. apply (f_equal z) in H. simpl in H.
    rewrite cos_0, sin_0 in H. lra. }
  destruct (drawShadedFace_colour_range (new_Renderer 800 800) triangleModel
              [0; 1; 2]%nat [mkScreenPoint 0 0] normal
              (FillStrokePath c (IZR c * 0.7) 1 [mkScreenPoint 0 0])
              (lightDirection_unit 800 800) eq_refl Hnonzero eq_refl)
    as (_ & c' & Hc & Hrange).
  exists c'. split; [|exact Hrange]. rewrite <- Hc. reflexivity.
Defined.

(** ** FPSCounter *)

Lemma Rgeb_true (a b : R) : Rgeb a b = true <-> a >= b.
Proof. unfold Rgeb; destruct (Rge_dec a b); split; intros; try discriminate; auto; lra. Qed.

Lemma Rgeb_false (a b : R) : Rgeb a b = false <-> a < b.
Proof. unfold Rgeb; destruct (Rge_dec a b); split; intros; try discriminate; auto; lra. Qed.

Lemma FPSCounter_update_within (this : FPSCounter) (now : R) :
  now - lastTime this < 1000 ->
  FPSCounter_update this now
  = (mkFPSCounter (S (frameCount this)) (lastTime this) (currentFPS this),
     currentFPS this).
Proof.
  intros Hnow. unfold FPSCounter_update.
  now rewrite (proj2 (Rgeb_false _ _) Hnow).
Qed.

Lemma FPSCounter_updates_within (this : FPSCounter) (nows : list R) :
  Forall (fun now => now - lastTime this < 1000) nows ->
  FPSCounter_updates this nows
  = mkFPSCounter (frameCount this + length nows) (lastTime this) (currentFPS this).
Proof.
  revert this. induction nows as [|now nows IH]; intros this Hall.
  - destruct this; simpl. f_equal. lia.
  - inversion Hall as [|? ? Hnow Hrest]; subst.
    change (FPSCounter_updates this (now :: nows))
      with (FPSCounter_updates (fst (FPSCounter_update this now)) nows).
    rewrite (FPSCounter_update_within this now Hnow). cbn [fst].
    rewrite IH; [|exact Hrest]. simpl. f_equal. lia.
Qed.

(** X22. The counter counts the calls of [update] in windows of at least one
    second: while less than 1000 ms have passed since [lastTime] a call only
    adds one to [frameCount] and reports the old value; the first call at or
    after 1000 ms reports the number of calls since the window began, this
    one included, and starts a new window at its time. *)
Theorem FPSCounter_update_window (this : FPSCounter) (nows : list R) (now : R)
    (Hwithin : Forall (fun t => t - lastTime this < 1000) nows)
    (Hnow : now - lastTime this >= 1000) :
  FPSCounter_updates this nows
  = mkFPSCounter (frameCount this + length nows) (lastTime this) (currentFPS this)
  /\ Forall (fun t => snd (FPSCounter_update this t) = currentFPS this) nows
  /\ FPSCounter_update (FPSCounter_updates this nows) now
     = (mkFPSCounter 0 now (frameCount this + length nows + 1),
        (frameCount this + length nows + 1)%nat).
Proof.
  pose proof (FPSCounter_updates_within this nows Hwithin) as Hw.
  split; [exact Hw|]. split.
  - eapply Forall_impl; [exact Hwithin|]. intros t Ht. simpl in Ht.
    now rewrite (FPSCounter_update_within this t Ht).
  - rewrite Hw. unfold FPSCounter_update. cbn [lastTime frameCount currentFPS].
    rewrite (proj2 (Rgeb_true _ _) Hnow). cbn [currentFPS].
    f_equal; [f_equal|]; lia.
Qed.

Lemma FPSCounter_update_window_witness :
  FPSCounter_update (FPSCounter_updates (new_FPSCounter 0) [16; 33; 50]) 1000
  = (mkFPSCounter 0 1000 4, 4%nat).
Proof.
  refine (proj2 (proj2 (FPSCounter_update_window (new_FPSCounter 0) [16; 33; 50]
            1000 _ _))).
  - repeat constructor; simpl; lra.
  - simpl; lra.
Defined.

(** ** Application: the animation *)

Section same_view.

Variables m1 m2 : Model3D.
Hypothesis Hvertices : vertices m1 = vertices m2.
Hypothesis Hposition : position m1 = position m2.
Hypothesis Hrotate :
  forall v, rotateXZ v (rotation m1) = rotateXZ v (rotation m2).

Lemma same_view_transformVertex (v : Vector3D) :
  transformVertex m1 v = transformVertex m2 v.
Proof using Hposition Hrotate. unfold transformVertex. now rewrite Hrotate, Hposition. Qed.

Lemma same_view_depth_loop (f : list nat) (sumZ : R) :
  getAverageDepth_loop m1 f sumZ = getAverageDepth_loop m2 f sumZ.
Proof using Hvertices Hposition Hrotate.
  revert sumZ. induction f as [|idx f IH]; intros sumZ; simpl; [reflexivity|].
  rewrite Hvertices. destruct (vertices m2 !! idx) as [v|]; simpl; [|reflexivity].
  rewrite <- IH. f_equal. f_equal.
  exact (f_equal z (same_view_transformVertex v)).
Qed.

Lemma same_view_depth (f : list nat) :
  getAverageDepth m1 f = getAverageDepth m2 f.
Proof using Hvertices Hposition Hrotate.
  unfold getAverageDepth. now rewrite same_view_depth_loop.
Qed.

Lemma same_view_screenPoints (r : Renderer) (f : list nat) :
  screenPointsOf r m1 f = screenPointsOf r m2 f.
Proof using Hvertices Hposition Hrotate.
  induction f as [|idx f IH]; simpl; [reflexivity|].
  rewrite Hvertices, IH. destruct (vertices m2 !! idx) as [v|]; simpl; [|reflexivity].
  now rewrite same_view_transformVertex.
Qed.

End same_view.

Lemma loopRuns_state (n : nat) (this that : Application) (dt : R)
    (frames : list (list DrawCall)) :
  loopRuns n this dt = Ok (that, frames) ->
  length frames = n
  /\ renderer that = renderer this
  /\ targetFPS that = targetFPS this
  /\ vertices (model that) = vertices (model this)
  /\ faces (model that) = faces (model this)
  /\ position (model that) = position (model this)
  /\ rotation (model that) = rotation (model this) + INR n * (PI * dt).
Proof.
  revert this that frames. induction n as [|n IH]; intros this that frames.
  - simpl. intros [= <- <-]. simpl. repeat split; ring.
  - rewrite S_INR.
    change (loopRuns (S n) this dt)
      with ('(this', calls) ← loop this dt;
            '(this'', frames') ← loopRuns n this' dt;
            Ok (this'', calls :: frames')).
    unfold loop.
    destruct (render (update this dt)) as [calls|]; [|discriminate].
    simpl.
    destruct (loopRuns n (update this dt) dt) as [[this'' frames']|]
      eqn:Hruns; [|discriminate].
    simpl. intros [= <- <-].
    destruct (IH _ _ _ Hruns) as (Hlen & Hr & Ht & Hv & Hf & Hp & Hrot).
    simpl in *.
    repeat split; try assumption; try (now f_equal).
    rewrite Hrot. ring.
Qed.

Lemma loopRuns_wellFormed_returns (n : nat) (this : Application) (dt : R) :
  wellFormed (model this) ->
  exists that frames, loopRuns n this dt = Ok (that, frames).
Proof.
  revert this. induction n as [|n IH]; intros this Hwf; [simpl; eauto|].
  assert (Hwf' : wellFormed (model (update this dt))) by exact Hwf.
  destruct (render_wellFormed _ Hwf') as [calls Hcalls].
  destruct (IH _ Hwf') as (that & frames & Hruns).
  exists that, (calls :: frames).
  change (loopRuns (S n) this dt)
    with ('(this', calls) ← loop this dt;
          '(this'', frames') ← loopRuns n this' dt;
          Ok (this'', calls :: frames')).
  unfold loop. rewrite Hcalls. simpl. rewrite Hruns. reflexivity.
Qed.

(** X23. On a well-formed mesh the animation never throws: [start] draws
    every frame asked for.  After [n] runs of [loop] the vertices, faces and
    position of the model and the renderer are what they were, and the
    rotation has grown by [n] times [PI * (0.5 / targetFPS)]. *)
Theorem start_animation (n : nat) (this : Application)
    (Hwf : wellFormed (model this)) :
  exists that frames,
    start n this = Ok (that, frames)
    /\ length frames = n
    /\ renderer that = renderer this
    /\ vertices (model that) = vertices (model this)
    /\ faces (model that) = faces (model this)
    /\ position (model that) = position (model this)
    /\ rotation (model that)
       = rotation (model this) + INR n * (PI * (0.5 / targetFPS this)).
Proof.
  unfold start.
  destruct (loopRuns_wellFormed_returns n this (0.5 / targetFPS this) Hwf)
    as (that & frames & Hruns).
  destruct (loopRuns_state _ _ _ _ _ Hruns) as (Hlen & Hr & _ & Hv & Hf & Hp & Hrot).
  exists that, frames. repeat split; assumption.
Qed.

Lemma start_animation_witness :
  exists that frames,
    start 3 twoFaceApp = Ok (that, frames) /\ length frames = 3%nat.
Proof.
  destruct (start_animation 3 twoFaceApp twoFaceModel_wellFormed)
    as (that & frames & Hstart & Hlen & _).
  exists that, frames. split; assumption.
Defined.

(** X24. The animation is periodic: after [4 * targetFPS] runs of [loop]
    the model has made a full turn, and every vertex is transformed to the
    point, every face has the depth key and every face has the canvas points
    it had before them. *)
Theorem start_periodic (p : nat) (this that : Application)
    (frames : list (list DrawCall))
    (Hfps : targetFPS this <> 0)
    (Hperiod : INR p = 4 * targetFPS this)
    (Hstart : start p this = Ok (that, frames)) :
  rotation (model that) = rotation (model this) + 2 * PI
  /\ (forall v, transformVertex (model that) v = transformVertex (model this) v)
  /\ (forall f, getAverageDepth (model that) f = getAverageDepth (model this) f)
  /\ (forall f, screenPointsOf (renderer that) (model that) f
                = screenPointsOf (renderer this) (model this) f).
Proof.
  destruct (loopRuns_state _ _ _ _ _ Hstart) as (_ & Hr & Ht & Hv & Hf & Hp & Hrot).
  assert (Hturn : rotation (model that) = rotation (model this) + 2 * PI).
  { rewrite Hrot, Hperiod.
    assert (Hhalf : targetFPS this * (0.5 / targetFPS this) = 0.5).
    { unfold Rdiv. rewrite (Rmult_comm 0.5), <- Rmult_assoc, Rinv_r; lra. }
    transitivity (rotation (model this)
                  + 4 * PI * (targetFPS this * (0.5 / targetFPS this))); [ring|].
    rewrite Hhalf. lra. }
  assert (Hrotate : forall v, rotateXZ v (rotation (model that))
                              = rotateXZ v (rotation (model this))).
  { intros v. rewrite Hturn. apply rotateXZ_2PI. }
  split; [exact Hturn|]. split; [|split].
  - apply same_view_transformVertex; assumption.
  - apply same_view_depth; assumption.
  - intros f. rewrite Hr. apply same_view_screenPoints; assumption.
Qed.

Lemma start_periodic_witness :
  exists that frames,
    start 240 quadApp = Ok (that, frames)
    /\ forall f, getAverageDepth (model that) f = getAverageDepth (model quadApp) f.
Proof.
  assert (Hwf : wellFormed (model quadApp)) by (repeat constructor; simpl; lia).
  destruct (loopRuns_wellFormed_returns 240 quadApp (0.5 / targetFPS quadApp) Hwf)
    as (that & frames & Hstart).
  exists that, frames. split; [exact Hstart|].
  refine (proj1 (proj2 (proj2 (start_periodic 240 quadApp that frames _ _ Hstart)))).
  - simpl. lra.
  - rewrite INR_IZR_INZ. change (Z.of_nat 240) with 240%Z.
    change (targetFPS quadApp) with 60. lra.
Defined.

(** ** Application: what a frame draws *)

Lemma drawFace_points (r : Renderer) (m : Model3D) (f : list nat) (op : CanvasOp) :
  drawFace r m f = Ok op ->
  Forall2 (fun idx p => exists v, vertices m !! idx = Some v
                                  /\ p = screenPointOf r m v) f (opPath op).
Proof.
  unfold drawFace.
  pose proof (screenPointsOf_points r m f) as Hpts.
  destruct (screenPointsOf r m f) as [ps|]; [|discriminate]. simpl.
  specialize (Hpts ps eq_refl).
  destruct (wireframeMode r).
  - unfold drawWireframe. destruct ps; [discriminate|]. simpl.
    now intros [= <-].
  - unfold drawShadedFace.
    destruct (getFaceNormal m f) as [[n|]|]; try discriminate. simpl.
    destruct ps; [discriminate|]. simpl. now intros [= <-].
Qed.

Lemma renderLoop_ops (this : Application) (l : list FaceWithDepth)
    (calls : list DrawCall) :
  renderLoop this l = Ok calls ->
  Forall (fun c => drawFace (renderer this) (model this) (drawnFace c)
                   = Ok (drawnOp c)) calls.
Proof.
  revert calls. induction l as [|fd l IH]; intros calls; simpl.
  - intros [= <-]. constructor.
  - destruct (renderFace this (face fd)) as [call|] eqn:Hcall; [|discriminate].
    destruct (renderLoop this l) as [calls'|]; [|discriminate].
    simpl. intros [= <-]. specialize (IH calls' eq_refl).
    destruct call as [c|]; [|exact IH].
    constructor; [|exact IH].
    unfold renderFace in Hcall.
    destruct (negb (wireframeMode (renderer this))); simpl in Hcall.
    + destruct (isFaceVisible (model this) (face fd)) as [[|]|];
        simpl in Hcall; try discriminate.
      destruct (drawFace _ _ (face fd)) as [op|] eqn:Hop; [|discriminate].
      simpl in Hcall. injection Hcall as <-. exact Hop.
    + destruct (drawFace _ _ (face fd)) as [op|] eqn:Hop; [|discriminate].
      simpl in Hcall. injection Hcall as <-. exact Hop.
Qed.

Lemma filter_sublist_of {A : Type} (p : A -> bool) (l : list A) :
  sublist (List.filter p l) l.
Proof.
  induction l as [|a l IH]; simpl; [constructor|].
  destruct (p a); [now apply sublist_skip | now apply sublist_cons].
Qed.

(** X25. A frame that completes draws each face of the mesh at most once
    and nothing else: the drawn faces, as a multiset, are contained in the
    faces of the mesh, and are all of them in wireframe mode.  Each call drew
    what [drawFace] returns for its face, a path of one point per index. *)
Theorem render_draws_mesh_faces (this : Application) (calls : list DrawCall)
    (Hrender : render this = Ok calls) :
  map drawnFace calls ⊆+ faces (model this)
  /\ (length calls <= length (faces (model this)))%nat
  /\ (wireframeMode (renderer this) = true ->
      Permutation (map drawnFace calls) (faces (model this)))
  /\ Forall (fun c =>
               drawFace (renderer this) (model this) (drawnFace c)
               = Ok (drawnOp c)
               /\ length (opPath (drawnOp c)) = length (drawnFace c)) calls.
Proof.
  destruct (render_returns this calls Hrender)
    as (sorted & Hs & Hperm & _ & _ & Hdrawn).
  assert (Hsub : map drawnFace calls ⊆+ faces (model this)).
  { rewrite Hdrawn, <- Hperm. apply sublist_submseteq, filter_sublist_of. }
  split; [exact Hsub|]. split; [|split].
  - apply submseteq_length in Hsub. now rewrite length_map in Hsub.
  - intros Hw. rewrite Hdrawn, <- Hperm. rewrite filter_all; [reflexivity|].
    intros f _. unfold passesCulling. now rewrite Hw.
  - unfold render in Hrender. rewrite Hs in Hrender. simpl in Hrender.
    eapply Forall_impl; [exact (renderLoop_ops _ _ _ Hrender)|].
    intros c Hc. simpl in Hc. split; [exact Hc|].
    symmetry. exact (Forall2_length _ _ _ (drawFace_points _ _ _ _ Hc)).
Qed.

Lemma render_draws_mesh_faces_witness :
  exists calls,
    render twoFaceApp = Ok calls
    /\ (length calls <= length (faces (model twoFaceApp)))%nat.
Proof.
  destruct (render_wellFormed twoFaceApp twoFaceModel_wellFormed) as [calls Hr].
  exists calls. split; [exact Hr|].
  exact (proj1 (proj2 (render_draws_mesh_faces twoFaceApp calls Hr))).
Defined.

Lemma sort_insert_stable {A : Type} (gt : A -> A -> bool) (p : A -> bool)
    (a : A) (l : list A) :
  (forall b c, p b = true -> p c = true -> gt b c = false) ->
  List.filter p (sort_insert gt a l) = List.filter p (a :: l).
Proof.
  intros Htie. induction l as [|b l IH]; [reflexivity|].
  simpl. destruct (gt a b) eqn:Hgt; [|reflexivity].
  simpl. rewrite IH. simpl.
  destruct (p a) eqn:Ha, (p b) eqn:Hb; try reflexivity.
  rewrite (Htie a b Ha Hb) in Hgt. discriminate.
Qed.

Lemma Array_sort_stable {A : Type} (gt : A -> A -> bool) (p : A -> bool)
    (l : list A) :
  (forall b c, p b = true -> p c = true -> gt b c = false) ->
  List.filter p (Array_sort gt l) = List.filter p l.
Proof.
  intros Htie. induction l as [|a l IH]; [reflexivity|].
  simpl. rewrite (sort_insert_stable gt p a _ Htie). simpl. now rewrite IH.
Qed.

Lemma Reqb_true (a b : R) : Reqb a b = true <-> a = b.
Proof. unfold Reqb; destruct (Req_EM_T a b); split; intros; try discriminate; auto; contradiction. Qed.

(** X26. Ties keep the order of the mesh.  [Array.prototype.sort] is
    stable, so in a mesh without empty faces the faces of one depth stand in
    the depth-sorted list in the order in which the mesh lists them. *)
Theorem sortedFaces_ties (this : Application) (fds sorted : list FaceWithDepth)
    (d : R)
    (Hnonempty : Forall (fun f => f <> []) (faces (model this)))
    (Hfds : facesWithDepthOf (model this) (faces (model this)) = Ok fds)
    (Hsorted : sortedFaces this = Ok sorted) :
  map face fds = faces (model this)
  /\ List.filter (fun fd => Reqb (depth fd) d) sorted
     = List.filter (fun fd => Reqb (depth fd) d) fds.
Proof.
  split; [exact (proj1 (facesWithDepthOf_returns this _ _ Hfds))|].
  unfold sortedFaces in Hsorted. rewrite Hfds in Hsorted. simpl in Hsorted.
  injection Hsorted as <-. apply Array_sort_stable.
  intros b c Hb Hc. apply Reqb_true in Hb, Hc.
  unfold byDepthDescending. apply Rltb_false. lra.
Qed.

Lemma facesWithDepthOf_cons (m : Model3D) (f : list nat) (fs : list (list nat)) :
  facesWithDepthOf m (f :: fs)
  = (depth ← getAverageDepth m f;
     fds ← facesWithDepthOf m fs;
     Ok (mkFaceWithDepth f depth :: fds)).
Proof. reflexivity. Qed.

Lemma tieModel_depths :
  getAverageDepth tieModel [0; 1; 2]%nat = Ok 2
  /\ getAverageDepth tieModel [3; 4; 5]%nat = Ok 5
  /\ getAverageDepth tieModel [6; 7; 8]%nat = Ok 2.
Proof.
  unfold getAverageDepth; simpl; rewrite cos_0, sin_0.
  repeat split; f_equal; lra.
Qed.

Lemma tieApp_facesWithDepth :
  facesWithDepthOf (model tieApp) (faces (model tieApp))
  = Ok [mkFaceWithDepth [0; 1; 2]%nat 2; mkFaceWithDepth [3; 4; 5]%nat 5;
        mkFaceWithDepth [6; 7; 8]%nat 2].
Proof.
  destruct tieModel_depths as (H1 & H2 & H3).
  change (model tieApp) with tieModel.
  change (faces tieModel) with [[0; 1; 2]; [3; 4; 5]; [6; 7; 8]]%nat.
  rewrite !facesWithDepthOf_cons, H1, H2, H3. reflexivity.
Qed.

Lemma tieApp_sortedFaces :
  sortedFaces tieApp
  = Ok [mkFaceWithDepth [3; 4; 5]%nat 5; mkFaceWithDepth [0; 1; 2]%nat 2;
        mkFaceWithDepth [6; 7; 8]%nat 2].
Proof.
  unfold sortedFaces. rewrite tieApp_facesWithDepth.
  cbn [mbind result_bind Array_sort sort_insert].
  unfold byDepthDescending; cbn [depth].
  rewrite (proj2 (Rltb_false 0 (2 - 5))) by lra.
  cbn [sort_insert]. cbn [depth].
  rewrite (proj2 (Rltb_true 0 (5 - 2))) by lra.
  cbn [sort_insert]. cbn [depth].
  rewrite (proj2 (Rltb_false 0 (2 - 2))) by lra.
  reflexivity.
Qed.

Lemma Reqb_false (a b : R) : Reqb a b = false <-> a <> b.
Proof. unfold Reqb; destruct (Req_EM_T a b); split; intros; try discriminate; auto; contradiction. Qed.

(** The sort moves the face at depth 5 to the front and leaves the two faces
    at depth 2 in the order of the mesh. *)
Lemma sortedFaces_ties_witness :
  exists sorted,
    sortedFaces tieApp = Ok sorted
    /\ map face sorted = [[3; 4; 5]; [0; 1; 2]; [6; 7; 8]]%nat
    /\ map face (List.filter (fun fd => Reqb (depth fd) 2) sorted)
       = [[0; 1; 2]; [6; 7; 8]]%nat.
Proof.
  eexists. split; [exact tieApp_sortedFaces|]. split; [reflexivity|].
  rewrite (proj2 (sortedFaces_ties tieApp _ _ 2
                    ltac:(repeat constructor; discriminate)
                    tieApp_facesWithDepth tieApp_sortedFaces)).
  cbn [List.filter depth].
  rewrite (proj2 (Reqb_true 2 2)) by reflexivity.
  rewrite (proj2 (Reqb_false 5 2)) by lra.
  reflexivity.
Defined.

(** ** parseOBJ: the cleanup of the vertices *)

Lemma Set_add_NoDup (s : list Z) (idx : Z) : NoDup s -> NoDup (Set_add s idx).
Proof.
  intros Hs. unfold Set_add. case_bool_decide as Hin; [exact Hs|].
  apply NoDup_app. split; [exact Hs|]. split.
  - intros i Hi Hi'. apply list_elem_of_singleton in Hi'. now subst.
  - apply NoDup_singleton.
Qed.

Lemma usedSetOf_NoDup (faces : list (list Z)) : NoDup (usedSetOf faces).
Proof.
  unfold usedSetOf.
  assert (H : forall s, NoDup s ->
    NoDup (foldl (fun usedSet face => foldl Set_add usedSet face) s faces)).
  { induction faces as [|f faces IH]; intros s Hs; simpl; [exact Hs|].
    apply IH. clear IH. revert s Hs.
    induction f as [|i f IHf]; intros s Hs; simpl; [exact Hs|].
    apply IHf, Set_add_NoDup, Hs. }
  apply H. constructor.
Qed.

Lemma usedSetOf_elem (faces : list (list Z)) (i : Z) :
  i ∈ usedSetOf faces <-> exists f, f ∈ faces /\ i ∈ f.
Proof.
  unfold usedSetOf. rewrite usedSet_elem. rewrite elem_of_nil. tauto.
Qed.

Lemma usedIndices_sorted (s : list Z) :
  StronglySorted Z.le (Array_sort (fun a b => (0 <? a - b)%Z) s).
Proof.
  apply Array_sort_sorted.
  - intros a b c; lia.
  - intros a b H. apply Z.ltb_lt in H. lia.
  - intros a b H. apply Z.ltb_ge in H. lia.
Qed.

Section cleanMesh_spec.

Context {number : Type}.

Lemma remapLoop_result (vertices : list (Vertex number)) (usedIndices : list Z)
    (newIdx : nat) (oldToNew : gmap Z nat)
    (cleanVerts : list (option (Vertex number))) :
  let r := remapLoop number vertices usedIndices newIdx (oldToNew, cleanVerts) in
  snd r = cleanVerts ++ map (arrayGet vertices) usedIndices
  /\ (NoDup usedIndices ->
      forall k i, usedIndices !! k = Some i -> fst r !! i = Some (newIdx + k)%nat)
  /\ (forall i, i ∉ usedIndices -> fst r !! i = oldToNew !! i)
  /\ (forall i n, fst r !! i = Some n ->
        oldToNew !! i = Some n
        \/ exists k, usedIndices !! k = Some i /\ n = (newIdx + k)%nat).
Proof.
  revert newIdx oldToNew cleanVerts.
  induction usedIndices as [|o rest IH]; intros newIdx oldToNew cleanVerts.
  - simpl. split; [now rewrite app_nil_r|].
    split; [intros _ k i Hk; discriminate|]. split; [reflexivity|]. auto.
  - specialize (IH (S newIdx) (<[o:=newIdx]> oldToNew)
                  (cleanVerts ++ [arrayGet vertices o])).
    simpl in IH |- *. destruct IH as (Hcv & Hnew & Hold & Hkeys).
    split; [rewrite Hcv, <- app_assoc; reflexivity|].
    split; [|split].
    + intros Hnd k i Hk. apply NoDup_cons in Hnd. destruct Hnd as [Ho Hnd].
      destruct k as [|k]; simpl in Hk.
      * injection Hk as <-. rewrite (Hold o Ho), lookup_insert_eq.
        f_equal. lia.
      * rewrite (Hnew Hnd k i Hk). f_equal. lia.
    + intros i Hi. apply not_elem_of_cons in Hi. destruct Hi as [Hne Hi].
      rewrite (Hold i Hi). now apply lookup_insert_ne.
    + intros i n Hn. destruct (Hkeys i n Hn) as [Hins|(k & Hk & ->)].
      * destruct (decide (o = i)) as [->|Hne].
        -- rewrite lookup_insert_eq in Hins. injection Hins as <-.
           right. exists 0%nat. split; [reflexivity|lia].
        -- rewrite lookup_insert_ne in Hins by exact Hne. now left.
      * right. exists (S k). split; [exact Hk|lia].
Qed.

(** The renumbering of [cleanMesh]: the list [used] of the distinct indices of
    the faces in ascending order; the map sends [used[k]] to [k] and the
    vertex array is the raw vertex of each. *)
Lemma cleanMesh_remap (vertices : list (Vertex number)) (faces : list (list Z)) :
  exists (used : list Z) (oldToNew : gmap Z nat),
    NoDup used
    /\ StronglySorted Z.le used
    /\ (forall i, i ∈ used <-> exists f, f ∈ faces /\ i ∈ f)
    /\ (forall i n, oldToNew !! i = Some n <-> used !! n = Some i)
    /\ cleanMesh vertices faces
       = mkMesh (map (arrayGet vertices) used)
           (map (fun f => map (fun oldIdx => oldToNew !! oldIdx) f) faces).
Proof.
  set (used := Array_sort (fun a b => (0 <? a - b)%Z) (usedSetOf faces)).
  assert (Hnd : NoDup used).
  { unfold used. rewrite Array_sort_perm. apply usedSetOf_NoDup. }
  pose proof (remapLoop_result vertices used 0 ∅ []) as Hloop.
  unfold cleanMesh. fold used.
  destruct (remapLoop number vertices used 0 (∅, [])) as [oldToNew cleanVerts].
  simpl in Hloop. destruct Hloop as (Hcv & Hnew & _ & Hkeys).
  exists used, oldToNew. split; [exact Hnd|].
  split; [apply usedIndices_sorted|]. split; [|split].
  - intros i. unfold used. rewrite Array_sort_perm. apply usedSetOf_elem.
  - intros i n. split.
    + intros Hn. destruct (Hkeys i n Hn) as [He|(k & Hk & ->)];
        [now rewrite lookup_empty in He | exact Hk].
    + intros Hn. exact (Hnew Hnd n i Hn).
  - now rewrite Hcv.
Qed.

End cleanMesh_spec.

Lemma parseOBJ_cleanMesh {number : Type} (parseFloat : jsstring -> option number)
    (text : jsstring) :
  parseOBJ parseFloat text
  = cleanMesh (fst (parseLines parseFloat text)) (snd (parseLines parseFloat text)).
Proof.
  unfold parseOBJ, parseLines, cleanMesh.
  destruct (foldl (parseLine number parseFloat) ([], []) (splitLines [] text))
    as [vertices faces].
  reflexivity.
Qed.

Lemma lookup_map {A B : Type} (g : A -> B) (l : list A) (k : nat) :
  map g l !! k = g <$> l !! k.
Proof.
  revert k. induction l as [|a l IH]; intros [|k]; simpl; try reflexivity.
  apply IH.
Qed.

Lemma arrayGet_is_Some {A : Type} (a : list A) (i : Z) :
  is_Some (arrayGet a i) <-> (0 <= i < Z.of_nat (length a))%Z.
Proof.
  unfold arrayGet. destruct (Z.ltb_spec i 0) as [Hneg|Hpos].
  - split; [intros [x Hx]; discriminate | lia].
  - rewrite lookup_lt_is_Some. lia.
Qed.

Section parseOBJ_cleanup.

Context {number : Type} (parseFloat : jsstring -> option number).

(** X27. The cleanup of [parseOBJ] renumbers without changing the mesh:
    every index of every face is replaced by the position, in the returned
    vertex array, of the very vertex it named before (or of [undefined] where
    it named none); the renumbering keeps the order of the indices, so two
    different vertices are never merged; and every entry of the returned
    vertex array is named by some face. *)
Theorem parseOBJ_renumbering (text : jsstring) :
  let vertices := fst (parseLines parseFloat text) in
  let faces := snd (parseLines parseFloat text) in
  let mesh := parseOBJ parseFloat text in
  exists remap : Z -> option nat,
    meshFaces mesh = map (map remap) faces
    /\ (forall f old, f ∈ faces -> old ∈ f ->
          exists n, remap old = Some n
                    /\ meshVertices mesh !! n = Some (arrayGet vertices old))
    /\ (forall old1 old2 n1 n2, remap old1 = Some n1 -> remap old2 = Some n2 ->
          ((old1 < old2)%Z <-> (n1 < n2)%nat))
    /\ (forall n, (n < length (meshVertices mesh))%nat ->
          exists f old, f ∈ faces /\ old ∈ f /\ remap old = Some n).
Proof.
  intros vertices faces mesh. unfold mesh. rewrite parseOBJ_cleanMesh.
  fold vertices faces.
  destruct (cleanMesh_remap vertices faces)
    as (used & oldToNew & Hnd & Hsorted & Hused & Hkeys & ->).
  exists (fun old => oldToNew !! old). simpl.
  split; [reflexivity|]. split; [|split].
  - intros f old Hf Hold.
    assert (Hin : old ∈ used) by (apply Hused; eauto).
    apply list_elem_of_lookup_1 in Hin. destruct Hin as [n Hn].
    exists n. split; [now apply Hkeys|]. now rewrite lookup_map, Hn.
  - intros old1 old2 n1 n2 H1 H2. apply Hkeys in H1, H2.
    assert (Hlt : forall a b na nb, used !! na = Some a -> used !! nb = Some b ->
                    (na < nb)%nat -> (a < b)%Z).
    { intros a b na nb Ha Hb Hlt.
      pose proof (StronglySorted_lookup_lt _ _ _ _ _ _ Hsorted Ha Hb Hlt) as Hle.
      assert (a <> b); [|lia]. intros ->.
      pose proof (NoDup_lookup _ _ _ _ Hnd Ha Hb). lia. }
    split.
    + intros Ho. destruct (Nat.lt_total n1 n2) as [Hn|[Hn|Hn]]; [exact Hn|..].
      * subst n2. rewrite H1 in H2. injection H2 as ->. lia.
      * pose proof (Hlt _ _ _ _ H2 H1 Hn). lia.
    + intros Hn. exact (Hlt _ _ _ _ H1 H2 Hn).
  - intros n Hn. rewrite length_map in Hn.
    destruct (lookup_lt_is_Some_2 _ _ Hn) as [old Hold].
    assert (Hin : old ∈ used) by (eapply list_elem_of_lookup_2; eauto).
    apply Hused in Hin. destruct Hin as (f & Hf & Hof).
    exists f, old. split; [exact Hf|]. split; [exact Hof|]. now apply Hkeys.
Qed.

(** X28. The returned vertex array has no [undefined] entry exactly when
    every index of every face, counted from 0, is below the number of
    vertices read from the text and not negative. *)
Theorem parseOBJ_vertices_defined (text : jsstring) :
  let vertices := fst (parseLines parseFloat text) in
  let faces := snd (parseLines parseFloat text) in
  Forall is_Some (meshVertices (parseOBJ parseFloat text))
  <-> (forall f old, f ∈ faces -> old ∈ f ->
         (0 <= old < Z.of_nat (length vertices))%Z).
Proof.
  intros vertices faces. rewrite parseOBJ_cleanMesh. fold vertices faces.
  destruct (cleanMesh_remap vertices faces)
    as (used & oldToNew & _ & _ & Hused & _ & ->).
  simpl. rewrite Forall_forall. split.
  - intros Hall f old Hf Hold. apply arrayGet_is_Some. apply Hall.
    apply list_elem_of_In, List.in_map, list_elem_of_In. apply Hused. eauto.
  - intros Hrange v Hv.
    apply list_elem_of_In, List.in_map_iff in Hv. destruct Hv as (old & <- & Hold).
    apply list_elem_of_In, Hused in Hold. destruct Hold as (f & Hf & Hof).
    apply arrayGet_is_Some. eauto.
Qed.

End parseOBJ_cleanup.

(** X29. From the loader to the renderer: when every index of every face
    of an OBJ text names a vertex of the text, the mesh [parseOBJ] returns
    makes a well-formed [Model3D] (triangles with valid indices, rotation 0),
    and [render] completes on it in either mode. *)
Theorem parseOBJ_model_wellFormed (parseFloat : jsstring -> option R)
    (text : jsstring) (cameraDistance : R)
    (Hrange : forall f old, f ∈ snd (parseLines parseFloat text) -> old ∈ f ->
                (0 <= old < Z.of_nat (length (fst (parseLines parseFloat text))))%Z) :
  exists m,
    meshModel (parseOBJ parseFloat text) cameraDistance = Some m
    /\ wellFormed m
    /\ Forall (fun f => length f = 3%nat) (faces m)
    /\ rotation m = 0
    /\ forall r fps, exists calls, render (mkApplication m r fps) = Ok calls.
Proof.
  pose proof (parseLines_triangles parseFloat (splitLines [] text) ([], [])
                (List.Forall_nil _)) as Htri.
  change (foldl (parseLine R parseFloat) ([], []) (splitLines [] text))
    with (parseLines parseFloat text) in Htri.
  rewrite parseOBJ_cleanMesh.
  destruct (parseLines parseFloat text) as [vertices faces]. simpl in Hrange, Htri.
  simpl.
  destruct (cleanMesh_remap vertices faces)
    as (used & oldToNew & Hnd & _ & Hused & Hkeys & ->).
  unfold meshModel. simpl.
  assert (Hvs : is_Some (mapM (fun v : option (Vertex R) => v)
                           (map (arrayGet vertices) used))).
  { apply mapM_is_Some, Forall_forall. intros v Hv. simpl.
    apply list_elem_of_In, List.in_map_iff in Hv. destruct Hv as (old & <- & Hold).
    apply list_elem_of_In, Hused in Hold. destruct Hold as (f & Hf & Hof).
    apply arrayGet_is_Some. eauto. }
  destruct Hvs as [vs Hvs]. rewrite Hvs. simpl.
  assert (Hvlen : length vs = length used).
  { apply mapM_Some, Forall2_length in Hvs. now rewrite length_map in Hvs. }
  assert (Hfs : is_Some (mapM (fun f : list (option nat) =>
                                 mapM (fun i : option nat => i) f)
                           (map (fun f => map (fun old => oldToNew !! old) f) faces))).
  { apply mapM_is_Some, Forall_forall. intros cf Hcf. simpl.
    apply list_elem_of_In, List.in_map_iff in Hcf. destruct Hcf as (f & <- & Hf).
    apply list_elem_of_In in Hf.
    apply mapM_is_Some, Forall_forall. intros i Hi. simpl.
    apply list_elem_of_In, List.in_map_iff in Hi. destruct Hi as (old & <- & Hold).
    apply list_elem_of_In in Hold.
    assert (Hin : old ∈ used) by (apply Hused; eauto).
    apply list_elem_of_lookup_1 in Hin. destruct Hin as [n Hn].
    exists n. now apply Hkeys. }
  destruct Hfs as [fs Hfs]. rewrite Hfs. simpl.
  apply mapM_Some in Hfs.
  assert (Hfaces : Forall (fun f' => length f' = 3%nat
                     /\ Forall (fun idx => (idx < length vs)%nat) f') fs).
  { apply Forall_forall. intros f' Hf'.
    apply list_elem_of_lookup_1 in Hf'. destruct Hf' as [k Hk].
    destruct (Forall2_lookup_r _ _ _ _ _ Hfs Hk) as (cf & Hcf & Hmap).
    rewrite lookup_map in Hcf.
    destruct (faces !! k) as [f|] eqn:Hfk; [|discriminate].
    simpl in Hcf. injection Hcf as <-.
    apply mapM_Some in Hmap.
    pose proof (Forall2_length _ _ _ Hmap) as Hlen. rewrite length_map in Hlen.
    split.
    - rewrite <- Hlen. apply (proj1 (Forall_forall _ _) Htri).
      eapply list_elem_of_lookup_2; eauto.
    - apply Forall_forall. intros idx Hidx.
      apply list_elem_of_lookup_1 in Hidx. destruct Hidx as [j Hj].
      destruct (Forall2_lookup_r _ _ _ _ _ Hmap Hj) as (i & Hi & Heq).
      simpl in Heq. subst i. rewrite lookup_map in Hi.
      destruct (f !! j) as [old|]; [|discriminate]. simpl in Hi.
      injection Hi as Hi. apply Hkeys, lookup_lt_Some in Hi. lia. }
  assert (Hwf : wellFormed (new_Model3D (map toVector3D vs) fs cameraDistance)).
  { unfold wellFormed, wellFormedFace. simpl. rewrite length_map.
    eapply Forall_impl; [exact Hfaces|]. intros f' [H3 Hidx]. split; [lia|exact Hidx]. }
  eexists. split; [reflexivity|]. split; [exact Hwf|]. split; [|split].
  - simpl. eapply Forall_impl; [exact Hfaces|]. now intros f' [H3 _].
  - reflexivity.
  - intros r fps. apply render_wellFormed. exact Hwf.
Qed.

Lemma triangleOBJ_lines :
  parseLines parseFloatReal triangleOBJ
  = ([mkVertex (IZR 0) (IZR 0) (IZR 0); mkVertex (IZR 0) (IZR 1) (IZR 0);
      mkVertex (IZR 1) (IZR 0) (IZR 0)], [[0; 1; 2]%Z]).
Proof. cbv -[IZR]. reflexivity. Qed.

Lemma parseOBJ_model_wellFormed_witness :
  exists m,
    meshModel (parseOBJ parseFloatReal triangleOBJ) 2.5 = Some m
    /\ wellFormed m.
Proof.
  destruct (parseOBJ_model_wellFormed parseFloatReal triangleOBJ 2.5)
    as (m & Hm & Hwf & _).
  - rewrite triangleOBJ_lines. simpl. intros f old Hf Hold.
    apply list_elem_of_singleton in Hf. subst f.
    repeat (apply elem_of_cons in Hold; destruct Hold as [->|Hold]; [lia|]).
    now apply elem_of_nil in Hold.
  - exists m. split; assumption.
Defined.

Lemma seq_Z_sorted (a n : nat) : StronglySorted Z.le (map Z.of_nat (seq a n)).
Proof.
  revert a. induction n as [|n IH]; intros a; simpl; constructor; [apply IH|].
  apply Forall_forall. intros i Hi.
  apply list_elem_of_In, List.in_map_iff in Hi. destruct Hi as (k & <- & Hk).
  apply List.in_seq in Hk. lia.
Qed.

Lemma seq_Z_NoDup (n : nat) : NoDup (map Z.of_nat (seq 0 n)).
Proof.
  change (NoDup (Z.of_nat <$> seq 0 n)).
  apply NoDup_fmap_2; [apply _|apply NoDup_seq].
Qed.

Lemma seq_Z_elem (n : nat) (i : Z) :
  i ∈ map Z.of_nat (seq 0 n) <-> (0 <= i < Z.of_nat n)%Z.
Proof.
  rewrite list_elem_of_In, List.in_map_iff. split.
  - intros (k & <- & Hk). apply List.in_seq in Hk. lia.
  - intros Hi. exists (Z.to_nat i). split; [lia|]. apply List.in_seq. lia.
Qed.

Lemma sorted_NoDup_unique (l1 l2 : list Z) :
  StronglySorted Z.le l1 -> StronglySorted Z.le l2 -> NoDup l1 -> NoDup l2 ->
  (forall i, i ∈ l1 <-> i ∈ l2) -> l1 = l2.
Proof.
  revert l2. induction l1 as [|a l1 IH]; intros l2 Hs1 Hs2 Hn1 Hn2 Hel.
  - destruct l2 as [|b l2]; [reflexivity|].
    exfalso. apply (not_elem_of_nil b), Hel. left.
  - destruct l2 as [|b l2].
    + exfalso. apply (not_elem_of_nil a), Hel. left.
    + apply StronglySorted_inv in Hs1, Hs2.
      destruct Hs1 as [Hs1 Ha], Hs2 as [Hs2 Hb].
      apply NoDup_cons in Hn1, Hn2. destruct Hn1 as [Ha1 Hn1], Hn2 as [Hb2 Hn2].
      rewrite Forall_forall in Ha, Hb.
      assert (Hab : a = b).
      { assert (Hin1 : a ∈ b :: l2) by (apply Hel; left).
        assert (Hin2 : b ∈ a :: l1) by (apply Hel; left).
        apply elem_of_cons in Hin1, Hin2.
        destruct Hin1 as [->|Hin1]; [reflexivity|].
        destruct Hin2 as [->|Hin2]; [reflexivity|].
        pose proof (Ha b Hin2). pose proof (Hb a Hin1). lia. }
      subst b. f_equal. apply IH; try assumption.
      intros i. specialize (Hel i). rewrite !elem_of_cons in Hel.
      split; intros Hi.
      * destruct (proj1 Hel (or_intror Hi)) as [->|H]; [contradiction|exact H].
      * destruct (proj2 Hel (or_intror Hi)) as [->|H]; [contradiction|exact H].
Qed.

Lemma arrayGet_seq {A : Type} (a : list A) :
  map (arrayGet a) (map Z.of_nat (seq 0 (length a))) = map Some a.
Proof.
  apply list_eq. intros k. rewrite !lookup_map.
  destruct (Nat.lt_ge_cases k (length a)) as [Hlt|Hge].
  - rewrite lookup_seq_lt by exact Hlt. simpl.
    destruct (lookup_lt_is_Some_2 _ _ Hlt) as [v Hv]. rewrite Hv. simpl.
    unfold arrayGet. destruct (Z.ltb_spec (Z.of_nat k) 0); [lia|].
    now rewrite Nat2Z.id, Hv.
  - rewrite lookup_seq_ge by exact Hge. simpl.
    now rewrite (proj2 (lookup_ge_None _ _) Hge).
Qed.

(** X30. A text without unused vertices passes through unchanged: when the
    indices used by the faces are exactly the positions of the vertices read,
    the returned vertex array is the vertices read, in order, and every face
    keeps its indices. *)
Theorem parseOBJ_all_used {number : Type} (parseFloat : jsstring -> option number)
    (text : jsstring)
    (Hall : forall i, (exists f, f ∈ snd (parseLines parseFloat text) /\ i ∈ f)
                      <-> (0 <= i < Z.of_nat (length (fst (parseLines parseFloat text))))%Z) :
  meshVertices (parseOBJ parseFloat text)
  = map Some (fst (parseLines parseFloat text))
  /\ meshFaces (parseOBJ parseFloat text)
     = map (map (fun i => Some (Z.to_nat i))) (snd (parseLines parseFloat text)).
Proof.
  rewrite parseOBJ_cleanMesh.
  destruct (parseLines parseFloat text) as [vertices faces]. simpl in Hall |- *.
  destruct (cleanMesh_remap vertices faces)
    as (used & oldToNew & Hnd & Hsorted & Hused & Hkeys & ->).
  assert (Heq : used = map Z.of_nat (seq 0 (length vertices))).
  { apply sorted_NoDup_unique;
      [exact Hsorted|apply seq_Z_sorted|exact Hnd|apply seq_Z_NoDup|].
    intros i. rewrite Hused, Hall, seq_Z_elem. reflexivity. }
  simpl. split.
  - rewrite Heq. apply arrayGet_seq.
  - apply List.map_ext_in. intros f Hf. apply List.map_ext_in. intros old Hold.
    apply list_elem_of_In in Hf, Hold.
    assert (Hr : (0 <= old < Z.of_nat (length vertices))%Z) by (apply Hall; eauto).
    apply Hkeys. rewrite Heq, lookup_map, lookup_seq_lt by lia. simpl.
    f_equal. lia.
Qed.

Lemma parseOBJ_all_used_witness :
  meshFaces (parseOBJ parseFloatReal triangleOBJ) = [[Some 0; Some 1; Some 2]]%nat.
Proof.
  refine (eq_trans (proj2 (parseOBJ_all_used parseFloatReal triangleOBJ _)) _).
  - rewrite triangleOBJ_lines. simpl. intros i. split.
    + intros (f & Hf & Hi). apply list_elem_of_singleton in Hf. subst f.
      repeat (apply elem_of_cons in Hi; destruct Hi as [->|Hi]; [lia|]).
      now apply elem_of_nil in Hi.
    + intros Hi. exists [0; 1; 2]%Z. split; [apply list_elem_of_singleton; reflexivity|].
      assert (Hcases : (i = 0 \/ i = 1 \/ i = 2)%Z) by lia.
      destruct Hcases as [-> | [-> | ->]]; repeat constructor.
  - rewrite triangleOBJ_lines. reflexivity.
Defined.

(** The fan in index form: triangle [i] of an n-gon is
    [[idxs[0], idxs[i + 1], idxs[i + 2]]], there are [n - 2] of them, and none
    for fewer than 3 indices. *)
Lemma fanFrom_lookup (first : Z) (others : list Z) (i : nat) (b c : Z) :
  others !! i = Some b -> others !! S i = Some c ->
  fanFrom first others !! i = Some [first; b; c].
Proof.
  revert i. induction others as [|a others IH]; intros i Hb Hc; [discriminate|].
  destruct others as [|a' others]; [destruct i; discriminate|].
  destruct i as [|i].
  - simpl in Hb, Hc. injection Hb as ->. injection Hc as ->. reflexivity.
  - change (fanFrom first (a :: a' :: others))
      with ([first; a; a'] :: fanFrom first (a' :: others)).
    simpl. apply IH; assumption.
Qed.

Lemma triangulate_fan (idxs : list Z) (i : nat) (a b c : Z) :
  idxs !! 0%nat = Some a -> idxs !! S i = Some b -> idxs !! S (S i) = Some c ->
  triangulate idxs !! i = Some [a; b; c].
Proof.
  intros Ha Hb Hc. unfold triangulate.
  assert (Hlen : (3 <= length idxs)%nat) by (apply lookup_lt_Some in Hc; lia).
  destruct (Nat.leb_spec 3 (length idxs)); [|lia].
  destruct idxs as [|first others]; [discriminate|].
  simpl in Ha. injection Ha as ->. now apply fanFrom_lookup.
Qed.
